(** * Avalanche proof pool and peer slots: a shallow embedding

    Models [src/src/avalanche/proofpool.cpp] (the proof conflict pool) and
    [src/src/avalanche/peermanager.h] (slots and the peer manager interface).

    The pool is a boost multi_index container whose definition lives in
    proofpool.h, which is not part of the sources at hand.  Following the
    spec (section 3), it is modelled as one list of entries
    (staked output, owning proof), read through two views:
    - by-output: [find] by output, the first entry with that output;
      [emplace] inserts at the end only if no entry has that output yet;
    - by-proofid: lookup and erase of all entries carrying a proof id. *)

From Stdlib Require Import List Bool Arith NArith Lia.
Import ListNotations.

(** ** Data model *)

(** [COutPoint]: a transaction id (abstracted to a number) and an output
    index. *)
Definition COutPoint : Type := (N * N)%type.

Definition COutPoint_eqb (a b : COutPoint) : bool :=
  N.eqb (fst a) (fst b) && N.eqb (snd a) (snd b).

Definition ProofId : Type := N.

Record Stake := mkStake { getUTXO : COutPoint; amount : N }.

Record SignedStake := mkSignedStake { getStake : Stake }.

Record Proof := mkProof { getId : ProofId; getStakes : list SignedStake }.

(** The outputs staked by a proof, in the order of its stake list. *)
Definition stakedUTXOs (p : Proof) : list COutPoint :=
  map (fun s => getUTXO (getStake s)) (getStakes p).

(** A pool entry: the staked output and the proof owning it.  The source
    builds it as [ProofPoolEntry(i, proof)], whose output is the one of
    [proof->getStakes()[i]]. *)
Record ProofPoolEntry := mkEntry { entryUTXO : COutPoint; entryProof : Proof }.

Definition ProofPool : Type := list ProofPoolEntry.

Inductive AddProofStatus := REJECTED | SUCCEED | DUPLICATED.

(** ** The by-output view *)

Fixpoint find (pool : ProofPool) (o : COutPoint) : option ProofPoolEntry :=
  match pool with
  | [] => None
  | e :: pool' => if COutPoint_eqb (entryUTXO e) o then Some e else find pool' o
  end.

(** [pool.erase(it)] where [it = pool.find(o)]: the entry found goes. *)
Fixpoint erase_found (pool : ProofPool) (o : COutPoint) : ProofPool :=
  match pool with
  | [] => []
  | e :: pool' =>
      if COutPoint_eqb (entryUTXO e) o then pool' else e :: erase_found pool' o
  end.

(** [pool.emplace(entry)]: on a unique index, the insertion fails when an
    entry with the same output exists, and the existing entry is returned. *)
Definition emplace (pool : ProofPool) (e : ProofPoolEntry)
  : ProofPool * (ProofPoolEntry * bool) :=
  match find pool (entryUTXO e) with
  | Some old => (pool, (old, false))
  | None => (pool ++ [e], (e, true))
  end.

(** ** The by-proofid view *)

Definition has_id (pid : ProofId) (e : ProofPoolEntry) : bool :=
  N.eqb (getId (entryProof e)) pid.

(** [poolView.find(proofid) != poolView.end()] *)
Definition contains_id (pool : ProofPool) (pid : ProofId) : bool :=
  existsb (has_id pid) pool.

(** [poolView.erase(proofid)]: erases every entry with that id and returns
    how many were erased. *)
Definition erase_id (pool : ProofPool) (pid : ProofId) : ProofPool * nat :=
  (filter (fun e => negb (has_id pid e)) pool, length (filter (has_id pid) pool)).

(** ** Operations of the pool

    [ConflictingProofComparator] is defined in proofcomparator.h, which is
    not part of the sources at hand: it is a parameter [compare] here, where
    [compare a b] means that [a] is preferred over [b]. *)

Section Pool.

Variable compare : Proof -> Proof -> bool.

(** Two proofs a [std::set] ordered by [compare] considers the same key. *)
Definition equiv (a b : Proof) : bool := negb (compare a b) && negb (compare b a).

(** [ConflictingProofSet]: a [std::set<ProofRef, ConflictingProofComparator>],
    kept in comparator order; [begin()] is its head. *)
Definition ConflictingProofSet : Type := list Proof.

Fixpoint sorted_insert (x : Proof) (s : ConflictingProofSet) : ConflictingProofSet :=
  match s with
  | [] => [x]
  | y :: s' => if compare x y then x :: y :: s' else y :: sorted_insert x s'
  end.

(** [conflictingProofs.insert(x)]: nothing happens when an equivalent key is
    already present. *)
Definition set_insert (x : Proof) (s : ConflictingProofSet) : ConflictingProofSet :=
  if existsb (equiv x) s then s else sorted_insert x s.

(** The first loop of [addProofIfNoConflict]: for each stake index [i],
    [pool.emplace(i, proof)], recording the owner of the existing entry on a
    collision. *)
Fixpoint attach (proof : Proof) (utxos : list COutPoint) (pool : ProofPool)
    (conflictingProofs : ConflictingProofSet) : ProofPool * ConflictingProofSet :=
  match utxos with
  | [] => (pool, conflictingProofs)
  | o :: utxos' =>
      let '(pool', (it, inserted)) := emplace pool (mkEntry o proof) in
      if inserted then attach proof utxos' pool' conflictingProofs
      else attach proof utxos' pool' (set_insert (entryProof it) conflictingProofs)
  end.

(** The cleanup loop of [addProofIfNoConflict]; [None] is the failure of
    [assert(it != pool.end())], which aborts the process. *)
Fixpoint cleanup (proofid : ProofId) (utxos : list COutPoint) (pool : ProofPool)
  : option ProofPool :=
  match utxos with
  | [] => Some pool
  | o :: utxos' =>
      match find pool o with
      | None => None
      | Some it =>
          if N.eqb (getId (entryProof it)) proofid
          then cleanup proofid utxos' (erase_found pool o)
          else cleanup proofid utxos' pool
      end
  end.

(** [ProofPool::addProofIfNoConflict]: the new pool, the status, and the
    contents of the [conflictingProofs] out-parameter; [None] when an
    assertion fails. *)
Definition addProofIfNoConflict (pool : ProofPool) (proof : Proof)
  : option (AddProofStatus * ProofPool * ConflictingProofSet) :=
  let proofid := getId proof in
  let conflictingProofs := [] in
  if contains_id pool proofid then Some (DUPLICATED, pool, conflictingProofs)
  else
    let '(pool1, conflictingProofs1) :=
      attach proof (stakedUTXOs proof) pool conflictingProofs in
    match conflictingProofs1 with
    | [] => Some (SUCCEED, pool1, conflictingProofs1)
    | _ :: _ =>
        match cleanup proofid (stakedUTXOs proof) pool1 with
        | None => None
        | Some pool2 => Some (REJECTED, pool2, conflictingProofs1)
        end
    end.

(** [ProofPool::removeProof]: the new pool and whether anything was erased. *)
Definition removeProof (pool : ProofPool) (proof : Proof) : ProofPool * bool :=
  let '(pool', n) := erase_id pool (getId proof) in (pool', negb (Nat.eqb n 0)).

Definition removeProofs (pool : ProofPool) (proofs : list Proof) : ProofPool :=
  fold_left (fun pl q => fst (removeProof pl q)) proofs pool.

(** [ProofPool::addProofIfPreferred].  [!added] holds exactly for
    [REJECTED], the enumerator 0 of [AddProofStatus].  The retry uses the
    overload with a local conflict set, so the caller's out-parameter keeps
    the conflicts of the first attempt.  [None]: an assertion failed. *)
Definition addProofIfPreferred (pool : ProofPool) (proof : Proof)
  : option (AddProofStatus * ProofPool * ConflictingProofSet) :=
  match addProofIfNoConflict pool proof with
  | None => None
  | Some (added, pool1, conflictingProofs) =>
      match added, conflictingProofs with
      | REJECTED, best :: _ =>
          if compare proof best then
            let pool2 := removeProofs pool1 conflictingProofs in
            match addProofIfNoConflict pool2 proof with
            | Some (SUCCEED, pool3, _) => Some (SUCCEED, pool3, conflictingProofs)
            | _ => None
            end
          else Some (added, pool1, conflictingProofs)
      | _, _ => Some (added, pool1, conflictingProofs)
      end
  end.

(** [ProofPool::getProof(const COutPoint &)] *)
Definition getProofByUTXO (pool : ProofPool) (o : COutPoint) : option Proof :=
  match find pool o with Some e => Some (entryProof e) | None => None end.

(** [ProofPool::getProof(const ProofId &)] *)
Definition getProofById (pool : ProofPool) (pid : ProofId) : option Proof :=
  match List.find (has_id pid) pool with
  | Some e => Some (entryProof e)
  | None => None
  end.

(** Public calls on the pool, for the reachable states. *)
Inductive PoolCall :=
  | CallAddProofIfNoConflict (p : Proof)
  | CallAddProofIfPreferred (p : Proof)
  | CallRemoveProof (p : Proof).

Definition runCall (pool : ProofPool) (c : PoolCall) : option ProofPool :=
  match c with
  | CallAddProofIfNoConflict p =>
      match addProofIfNoConflict pool p with Some (_, pool', _) => Some pool' | None => None end
  | CallAddProofIfPreferred p =>
      match addProofIfPreferred pool p with Some (_, pool', _) => Some pool' | None => None end
  | CallRemoveProof p => Some (fst (removeProof pool p))
  end.

(** Pools observable between public calls, starting from the empty pool;
    a call that aborts on an assertion has no successor state. *)
Inductive reachable : ProofPool -> Prop :=
  | reachable_empty : reachable []
  | reachable_step pool c pool' :
      reachable pool -> runCall pool c = Some pool' -> reachable pool'.

End Pool.

(** ** Rescan

    [PeerManager::registerProof] is not part of the sources at hand.
    Modelled from the spec: section 4.2 describes it as the entry point
    through which the pool (re)inserts a proof's presence into the peer
    registry, so it is a parameter that updates the registry alone. *)

Section Rescan.

Variable PeerRegistry : Type.
Variable registerProof : PeerRegistry -> Proof -> PeerRegistry.

(** [ProofPool::rescan]: [previousPool] takes the entries, [pool] is
    cleared, and each previous entry's proof is registered in turn.
    Returns the updated registry and the pool. *)
Definition rescan (pool : ProofPool) (peerManager : PeerRegistry)
  : PeerRegistry * ProofPool :=
  let previousPool := pool in
  let pool' : ProofPool := [] in
  (fold_left (fun pm entry => registerProof pm (entryProof entry)) previousPool peerManager,
   pool').

End Rescan.

(** ** Slots and the peer manager ([peermanager.h]) *)

(** [uint64_t] fields; no arithmetic happens on them here, so they are
    naturals, compared as unsigned integers. *)
Record Slot := mkSlot { start : N; stop : N }.

Definition contains (s : Slot) (slot : N) : bool := (start s <=? slot)%N && (slot <? stop s)%N.
Definition precedes (s : Slot) (slot : N) : bool := (stop s <=? slot)%N.
Definition follows (s : Slot) (slot : N) : bool := (slot <? start s)%N.

(** Exactly one of three booleans holds. *)
Definition exactly_one (a b c : bool) : bool :=
  (a && negb b && negb c) || (negb a && b && negb c) || (negb a && negb b && c).

Record PeerManager := mkPeerManager {
  slots : list Slot;
  slotCount : N;
  fragmentation : N
}.

(** [PeerManager::rescorePeer] is defined in peermanager.cpp, not part of
    the sources at hand: it is a parameter of [removePeer]. *)
Section PeerManagerOps.

Variable rescorePeer : PeerManager -> nat -> N -> PeerManager.

(** [void removePeer(size_t i) { rescorePeer(i, 0); }] *)
Definition removePeer (pm : PeerManager) (i : nat) : PeerManager := rescorePeer pm i 0.

End PeerManagerOps.

(** ** Concrete proofs used in examples *)

Definition stakeOn (o : COutPoint) : SignedStake := mkSignedStake (mkStake o 100).

Definition proofOf (pid : ProofId) (os : list COutPoint) : Proof :=
  mkProof pid (map stakeOn os).

(** A comparator: lower proof ids are preferred. *)
Definition compareById (a b : Proof) : bool := (getId a <? getId b)%N.

Definition O1 : COutPoint := (1, 0)%N.
Definition O2 : COutPoint := (2, 0)%N.
Definition O3 : COutPoint := (3, 0)%N.

Definition proofB : Proof := proofOf 5%N [O1].
Definition proofA : Proof := proofOf 3%N [O1; O2].
Definition proofC : Proof := proofOf 1%N [O2].

(** Proofs listing one output twice. *)
Definition proofD : Proof := proofOf 2%N [O1; O1].
Definition proofE : Proof := proofOf 3%N [O3; O3].

(** The pool after [addProofIfNoConflict(proofB)] on the empty pool. *)
Definition poolB : ProofPool := [mkEntry O1 proofB].

(** ** Auxiliary definitions for the proofs *)

Definition keys (pool : ProofPool) : list COutPoint := map entryUTXO pool.

(** No two members of a conflict set are the same key of the set. *)
Definition set_distinct (compare : Proof -> Proof -> bool) (s : ConflictingProofSet) : Prop :=
  ForallOrdPairs (fun a b => equiv compare a b = false) s.

(** An output no entry of [pool0] holds. *)
Definition freeb (pool0 : ProofPool) (k : COutPoint) : bool :=
  match find pool0 k with None => true | Some _ => false end.

(** The conflicts the first loop records when no output is attached twice. *)
Definition conflFold (compare : Proof -> Proof -> bool) (pool0 : ProofPool)
    (utxos : list COutPoint) (confl : ConflictingProofSet)
  : ConflictingProofSet :=
  fold_left (fun c k => match find pool0 k with
                        | Some e => set_insert compare (entryProof e) c
                        | None => c end) utxos confl.

(** What the spec (section 4.4) asks of the comparator: a strict weak
    order, [compare a b] read as "[a] is preferred over [b]" ... *)
Definition strict_weak_order (compare : Proof -> Proof -> bool) : Prop :=
  (forall a, compare a a = false) /\
  (forall a b c, compare a b = true -> compare b c = true -> compare a c = true) /\
  (forall a b c, compare a c = true -> compare a b = true \/ compare b c = true).

(** ... whose ties are broken by proof id. *)
Definition ties_by_id (compare : Proof -> Proof -> bool) : Prop :=
  forall a b, compare a b = false -> compare b a = false -> getId a = getId b.

(** The head of a set ([begin()]) is preferred over or tied with every
    member. *)
Definition head_min (compare : Proof -> Proof -> bool) (s : ConflictingProofSet) : Prop :=
  match s with
  | [] => True
  | h :: _ => forall x, In x s -> compare x h = false
  end.

(** Every proof with an entry in the pool holds all of its staked outputs. *)
Definition proof_complete (pool : ProofPool) : Prop :=
  forall e, In e pool -> forall o, In o (stakedUTXOs (entryProof e)) ->
    getProofByUTXO pool o = Some (entryProof e).

(** Entries carrying the same proof id carry the same proof. *)
Definition id_coherent (pool : ProofPool) : Prop :=
  forall e1 e2, In e1 pool -> In e2 pool ->
    getId (entryProof e1) = getId (entryProof e2) -> entryProof e1 = entryProof e2.

Definition pool_inv (pool : ProofPool) : Prop :=
  NoDup (keys pool) /\ proof_complete pool /\ id_coherent pool.

(** ** Lemmas on the two views *)

Lemma COutPoint_eqb_spec (a b : COutPoint) : COutPoint_eqb a b = true <-> a = b.
Proof.
  destruct a as [a1 a2], b as [b1 b2]; unfold COutPoint_eqb; simpl.
  rewrite andb_true_iff, !N.eqb_eq. split; [intros [-> ->]; reflexivity|].
  intros H; inversion H; auto.
Qed.

Lemma find_Some pool o e :
  find pool o = Some e -> In e pool /\ entryUTXO e = o.
Proof.
  induction pool as [|x pool IH]; simpl; [discriminate|].
  destruct (COutPoint_eqb (entryUTXO x) o) eqn:Ex.
  - intros H; inversion H; subst. apply COutPoint_eqb_spec in Ex. auto.
  - intros H; destruct (IH H); auto.
Qed.

Lemma find_None pool o : find pool o = None <-> ~ In o (keys pool).
Proof.
  induction pool as [|x pool IH]; simpl; [tauto|].
  destruct (COutPoint_eqb (entryUTXO x) o) eqn:Ex.
  - apply COutPoint_eqb_spec in Ex. split; [discriminate|]. intros H; tauto.
  - rewrite IH. split; [|tauto]. intros H [H1|H1]; [|tauto].
    rewrite H1 in Ex. assert (o = o) as Ho by reflexivity.
    apply COutPoint_eqb_spec in Ho. congruence.
Qed.

Lemma find_app_None pool rest o :
  find pool o = None -> find (pool ++ rest) o = find rest o.
Proof.
  induction pool as [|x pool IH]; simpl; [auto|].
  destruct (COutPoint_eqb (entryUTXO x) o); [discriminate|exact IH].
Qed.

Lemma find_app_Some pool rest o e :
  find pool o = Some e -> find (pool ++ rest) o = Some e.
Proof.
  induction pool as [|x pool IH]; simpl; [discriminate|].
  destruct (COutPoint_eqb (entryUTXO x) o); [auto|exact IH].
Qed.

Lemma erase_found_incl pool o e : In e (erase_found pool o) -> In e pool.
Proof.
  induction pool as [|x pool IH]; simpl; [auto|].
  destruct (COutPoint_eqb (entryUTXO x) o); simpl; [auto|]. intuition.
Qed.

Lemma erase_found_nodup pool o :
  NoDup (keys pool) -> NoDup (keys (erase_found pool o)).
Proof.
  induction pool as [|x pool IH]; simpl; [auto|].
  intros Hnd; inversion Hnd as [|? ? Hx Hnd']; subst.
  destruct (COutPoint_eqb (entryUTXO x) o); [exact Hnd'|].
  simpl; constructor; [|auto].
  intros Hin. apply Hx. unfold keys in *. apply in_map_iff in Hin.
  destruct Hin as [y [Hy Hiny]]. apply in_map_iff. exists y.
  split; [exact Hy|]. eapply erase_found_incl; eauto.
Qed.

Lemma keys_filter_nodup (g : ProofPoolEntry -> bool) pool :
  NoDup (keys pool) -> NoDup (keys (filter g pool)).
Proof.
  induction pool as [|x pool IH]; simpl; [auto|].
  intros Hnd; inversion Hnd as [|? ? Hx Hnd']; subst.
  destruct (g x); simpl; [|auto]. constructor; [|auto].
  intros Hin. apply Hx. unfold keys in *. apply in_map_iff in Hin.
  destruct Hin as [y [Hy Hiny]]. apply in_map_iff. exists y.
  split; [exact Hy|]. apply filter_In in Hiny; tauto.
Qed.

Lemma keys_app pool rest : keys (pool ++ rest) = keys pool ++ keys rest.
Proof. unfold keys; apply map_app. Qed.

Section PoolLemmas.

Variable compare : Proof -> Proof -> bool.

Lemma attach_nodup p utxos pool confl :
  NoDup (keys pool) -> NoDup (keys (fst (attach compare p utxos pool confl))).
Proof.
  revert pool confl; induction utxos as [|o utxos IH]; intros pool confl Hnd; simpl; [auto|].
  unfold emplace; simpl. destruct (find pool o) eqn:Hf; simpl; [auto|].
  apply IH. rewrite keys_app; simpl.
  apply find_None in Hf. apply NoDup_app; auto using NoDup_cons, NoDup_nil.
  intros x Hx [Hy|[]]; subst; auto.
Qed.

Lemma cleanup_nodup pid utxos pool pool' :
  NoDup (keys pool) -> cleanup pid utxos pool = Some pool' -> NoDup (keys pool').
Proof.
  revert pool; induction utxos as [|o utxos IH]; intros pool Hnd; simpl.
  - intros H; inversion H; subst; auto.
  - destruct (find pool o); [|discriminate].
    destruct (N.eqb _ _); apply IH; auto using erase_found_nodup.
Qed.

Lemma addProofIfNoConflict_nodup pool p st pool' confl :
  NoDup (keys pool) ->
  addProofIfNoConflict compare pool p = Some (st, pool', confl) -> NoDup (keys pool').
Proof.
  intros Hnd. unfold addProofIfNoConflict.
  destruct (contains_id pool (getId p)); [intros H; inversion H; subst; auto|].
  pose proof (attach_nodup p (stakedUTXOs p) pool [] Hnd) as Ha.
  destruct (attach compare p (stakedUTXOs p) pool []) as [pool1 c1]; simpl in Ha.
  destruct c1; [intros H; inversion H; subst; auto|].
  destruct (cleanup (getId p) (stakedUTXOs p) pool1) eqn:Hc; [|discriminate].
  intros H; inversion H; subst. eapply cleanup_nodup; eauto.
Qed.

Lemma removeProof_nodup pool p :
  NoDup (keys pool) -> NoDup (keys (fst (removeProof pool p))).
Proof. intros; simpl; apply keys_filter_nodup; auto. Qed.

Lemma removeProofs_nodup pool qs :
  NoDup (keys pool) -> NoDup (keys (removeProofs pool qs)).
Proof.
  unfold removeProofs; revert pool; induction qs as [|q qs IH]; intros pool Hnd; simpl; auto.
  apply IH. apply removeProof_nodup; auto.
Qed.

Lemma addProofIfPreferred_nodup pool p st pool' confl :
  NoDup (keys pool) ->
  addProofIfPreferred compare pool p = Some (st, pool', confl) -> NoDup (keys pool').
Proof.
  intros Hnd. unfold addProofIfPreferred.
  destruct (addProofIfNoConflict compare pool p) as [[[a pool1] c1]|] eqn:H1; [|discriminate].
  pose proof (addProofIfNoConflict_nodup _ _ _ _ _ Hnd H1) as Hnd1.
  destruct a; try (intros H; inversion H; subst; auto; fail).
  destruct c1 as [|best c1]; [intros H; inversion H; subst; auto|].
  destruct (compare p best); [|intros H; inversion H; subst; auto].
  destruct (addProofIfNoConflict compare (removeProofs pool1 (best :: c1)) p)
    as [[[a3 pool3] c3]|] eqn:H3; [|discriminate].
  destruct a3; try discriminate. intros H; inversion H; subst.
  eapply addProofIfNoConflict_nodup; [|exact H3]. apply removeProofs_nodup; auto.
Qed.

End PoolLemmas.

(** ** Lemmas on the conflict set *)

Section SetLemmas.

Variable compare : Proof -> Proof -> bool.

Lemma equiv_sym a b : equiv compare a b = equiv compare b a.
Proof. unfold equiv; apply andb_comm. Qed.

Lemma in_sorted_insert x s q : In q (sorted_insert compare x s) <-> q = x \/ In q s.
Proof.
  induction s as [|y s IH]; simpl; [intuition congruence|].
  destruct (compare x y); simpl; [intuition congruence|]. rewrite IH; intuition congruence.
Qed.

Lemma in_set_insert x s q : In q (set_insert compare x s) -> q = x \/ In q s.
Proof.
  unfold set_insert; destruct (existsb _ _); [auto|]. apply in_sorted_insert.
Qed.

Lemma set_insert_keeps x s q : In q s -> In q (set_insert compare x s).
Proof.
  unfold set_insert; destruct (existsb _ _); [auto|]. intros; apply in_sorted_insert; auto.
Qed.

Lemma set_insert_has x s :
  In x (set_insert compare x s) \/
  exists q, In q (set_insert compare x s) /\ equiv compare x q = true.
Proof.
  unfold set_insert; destruct (existsb (equiv compare x) s) eqn:E.
  - right. apply existsb_exists in E. exact E.
  - left. apply in_sorted_insert; auto.
Qed.

Lemma sorted_insert_distinct x s :
  set_distinct compare s -> Forall (fun q => equiv compare x q = false) s ->
  set_distinct compare (sorted_insert compare x s).
Proof.
  unfold set_distinct; induction s as [|y s IH]; simpl; intros Hd Hx.
  - repeat constructor.
  - inversion Hd as [|? ? Hy Hd']; subst. inversion Hx as [|? ? Hxy Hx']; subst.
    destruct (compare x y).
    + constructor; [constructor; auto|constructor; auto].
    + constructor; [|apply IH; auto].
      apply Forall_forall. intros q Hq. apply in_sorted_insert in Hq.
      destruct Hq as [->|Hq]; [rewrite equiv_sym; auto|].
      rewrite Forall_forall in Hy; auto.
Qed.

Lemma set_insert_distinct x s : set_distinct compare s -> set_distinct compare (set_insert compare x s).
Proof.
  unfold set_insert; destruct (existsb (equiv compare x) s) eqn:E; [auto|].
  intros Hd; apply sorted_insert_distinct; auto.
  apply Forall_forall; intros q Hq. destruct (equiv compare x q) eqn:Eq; auto.
  exfalso. assert (existsb (equiv compare x) s = true) by (apply existsb_exists; eauto).
  congruence.
Qed.

End SetLemmas.

Lemma find_app_free (pool0 : ProofPool) Acc o :
  find (pool0 ++ Acc) o = None -> find pool0 o = None /\ ~ In o (keys Acc).
Proof.
  intros H. destruct (find pool0 o) eqn:E.
  - erewrite find_app_Some in H; eauto. discriminate.
  - rewrite find_app_None in H by exact E. split; [auto|]. apply find_None; exact H.
Qed.

Lemma erase_found_app_free (pool0 : ProofPool) A o :
  find pool0 o = None -> erase_found (pool0 ++ A) o = pool0 ++ erase_found A o.
Proof.
  intros H. apply find_None in H. revert H. unfold keys.
  generalize pool0 as l. intros l; induction l as [|x l IH]; simpl; [auto|]. intros H.
  destruct (COutPoint_eqb (entryUTXO x) o) eqn:E.
  - apply COutPoint_eqb_spec in E. exfalso; auto.
  - f_equal. apply IH. tauto.
Qed.

Lemma erase_found_key A o e :
  NoDup (keys A) -> In e (erase_found A o) -> entryUTXO e <> o.
Proof.
  induction A as [|x A IH]; simpl; [tauto|]. intros Hnd.
  inversion Hnd as [|? ? Hx Hnd']; subst.
  destruct (COutPoint_eqb (entryUTXO x) o) eqn:E.
  - apply COutPoint_eqb_spec in E. intros He Heq. apply Hx. subst.
    rewrite <- Heq. apply in_map; auto.
  - intros [He|He]; [subst|auto]. intros Heq. apply COutPoint_eqb_spec in Heq. congruence.
Qed.

(** ** The two loops of [addProofIfNoConflict] *)

Section Loops.

Variable compare : Proof -> Proof -> bool.
Variable pool0 : ProofPool.
Variable p : Proof.

Lemma attach_shape utxos : forall Acc confl,
  (forall e, In e Acc -> entryProof e = p) ->
  (forall k, In k (keys Acc) -> find pool0 k = None) ->
  NoDup (keys Acc) ->
  exists Acc' confl',
    attach compare p utxos (pool0 ++ Acc) confl = (pool0 ++ Acc', confl') /\
    (forall e, In e Acc' -> entryProof e = p) /\
    (forall k, In k (keys Acc') -> find pool0 k = None) /\
    NoDup (keys Acc') /\
    (forall k, In k (keys Acc') -> In k (keys Acc) \/ In k utxos).
Proof.
  induction utxos as [|o utxos IH]; intros Acc confl Hp Hf Hnd; simpl.
  - exists Acc, confl. intuition.
  - unfold emplace; simpl. destruct (find (pool0 ++ Acc) o) eqn:E.
    + destruct (IH Acc (set_insert compare (entryProof p0) confl) Hp Hf Hnd)
        as (Acc' & c' & Heq & H1 & H2 & H3 & H4).
      exists Acc', c'. refine (conj Heq (conj H1 (conj H2 (conj H3 _)))). intros k Hk. destruct (H4 k Hk); auto with datatypes.
    + destruct (find_app_free pool0 Acc o E) as [Ho Hno].
      rewrite <- app_assoc.
      destruct (IH (Acc ++ [mkEntry o p]) confl) as (Acc' & c' & Heq & H1 & H2 & H3 & H4).
      * intros e He. apply in_app_or in He. destruct He as [He|[He|[]]]; subst; auto.
      * rewrite keys_app. intros k Hk. apply in_app_or in Hk.
        destruct Hk as [Hk|[Hk|[]]]; subst; auto.
      * rewrite keys_app; simpl. apply NoDup_app; auto using NoDup_cons, NoDup_nil.
        intros x Hx [Hy|[]]; subst; auto.
      * exists Acc', c'. refine (conj Heq (conj H1 (conj H2 (conj H3 _)))). intros k Hk.
        destruct (H4 k Hk) as [Hk'|Hk']; [|auto with datatypes].
        rewrite keys_app in Hk'. apply in_app_or in Hk'.
        destruct Hk' as [Hk'|[Hk'|[]]]; subst; auto with datatypes.
Qed.

Lemma attach_confl utxos : forall Acc confl,
  NoDup (keys Acc ++ filter (freeb pool0) utxos) ->
  (forall k, In k (keys Acc) -> find pool0 k = None) ->
  snd (attach compare p utxos (pool0 ++ Acc) confl) = conflFold compare pool0 utxos confl.
Proof.
  induction utxos as [|o utxos IH]; intros Acc confl Hnd Hf; simpl; [reflexivity|].
  unfold emplace; simpl. cbn [filter] in Hnd.
  destruct (find pool0 o) eqn:Eo.
  - assert (Fo : freeb pool0 o = false) by (unfold freeb; rewrite Eo; reflexivity).
    rewrite Fo in Hnd. erewrite find_app_Some by exact Eo. simpl. apply IH; auto.
  - assert (Fo : freeb pool0 o = true) by (unfold freeb; rewrite Eo; reflexivity).
    rewrite Fo in Hnd. rewrite find_app_None by exact Eo.
    assert (Hno : ~ In o (keys Acc)).
    { intros Hin. apply NoDup_remove_2 in Hnd. apply Hnd. auto with datatypes. }
    apply find_None in Hno. rewrite Hno. simpl.
    rewrite <- app_assoc. apply IH.
    + rewrite keys_app, <- app_assoc. exact Hnd.
    + rewrite keys_app. intros k Hk. apply in_app_or in Hk.
      destruct Hk as [Hk|[Hk|[]]]; subst; auto.
Qed.

Lemma cleanup_shape utxos : forall A r,
  (forall e, In e pool0 -> getId (entryProof e) <> getId p) ->
  (forall e, In e A -> entryProof e = p) ->
  (forall k, In k (keys A) -> find pool0 k = None) ->
  NoDup (keys A) ->
  cleanup (getId p) utxos (pool0 ++ A) = Some r ->
  (exists Arest, r = pool0 ++ Arest /\
     forall e, In e Arest -> In e A /\ ~ In (entryUTXO e) utxos) /\
  (forall k, In k utxos -> find pool0 k = None -> In k (keys A)) /\
  NoDup (filter (freeb pool0) utxos).
Proof.
  induction utxos as [|o utxos IH]; intros A r Hid Hp Hf Hnd Hc; simpl in Hc.
  - inversion Hc; subst. split; [exists A; split; simpl; auto|].
    simpl; split; [tauto|constructor].
  - cbn [filter]. destruct (find pool0 o) eqn:Eo.
    + assert (Fo : freeb pool0 o = false) by (unfold freeb; rewrite Eo; reflexivity).
      rewrite Fo. erewrite find_app_Some in Hc by exact Eo.
      destruct (find_Some _ _ _ Eo) as [Hin _].
      destruct (N.eqb_spec (getId (entryProof p0)) (getId p)) as [Heq|_];
        [exfalso; apply (Hid p0); auto|].
      destruct (IH A r Hid Hp Hf Hnd Hc) as [[Arest [Hr HA]] [Hk Hndf]].
      split; [exists Arest; split; [exact Hr|]|split; [|exact Hndf]].
      * intros e He. destruct (HA e He) as [HeA Hnin]. split; [auto|].
        intros [Ho|Ho]; [|auto]. subst o.
        assert (find pool0 (entryUTXO e) = None) by (apply Hf, in_map; auto). congruence.
      * intros k [Hk'|Hk'] Hfk; [subst; congruence|auto].
    + assert (Fo : freeb pool0 o = true) by (unfold freeb; rewrite Eo; reflexivity).
      rewrite Fo. rewrite find_app_None in Hc by exact Eo.
      destruct (find A o) as [it|] eqn:EA; [|discriminate].
      destruct (find_Some _ _ _ EA) as [HitA Hito].
      rewrite (Hp it HitA), N.eqb_refl in Hc.
      rewrite erase_found_app_free in Hc by exact Eo.
      assert (HndA' : NoDup (keys (erase_found A o))) by (apply erase_found_nodup; auto).
      destruct (IH (erase_found A o) r Hid) as [[Arest [Hr HA]] [Hk Hndf]]; auto.
      * intros e He. apply Hp. eapply erase_found_incl; eauto.
      * intros k Hk. apply Hf. unfold keys in *. apply in_map_iff in Hk.
        destruct Hk as [e [<- He]]. apply in_map. eapply erase_found_incl; eauto.
      * split; [exists Arest; split; [exact Hr|]|split].
        -- intros e He. destruct (HA e He) as [HeA Hnin].
           split; [eapply erase_found_incl; eauto|].
           intros [Ho|Ho]; [|auto]. apply (erase_found_key A o e Hnd HeA). auto.
        -- intros k [Hk'|Hk'] Hfk; [subst; apply in_map; auto|].
           specialize (Hk k Hk' Hfk). unfold keys in *. apply in_map_iff in Hk.
           destruct Hk as [e [<- He]]. apply in_map. eapply erase_found_incl; eauto.
        -- constructor; [|exact Hndf]. intros Hin. apply filter_In in Hin.
           destruct Hin as [Hin Hfr]. unfold freeb in Hfr.
           destruct (find pool0 o) eqn:E2; [discriminate|].
           specialize (Hk o Hin E2). unfold keys in Hk. apply in_map_iff in Hk.
           destruct Hk as [e [He1 He2]]. exact (erase_found_key A o e Hnd He2 He1).
Qed.

End Loops.

Section Rejection.

Variable compare : Proof -> Proof -> bool.

Lemma conflFold_cons pool0 o utxos c :
  conflFold compare pool0 (o :: utxos) c =
  conflFold compare pool0 utxos
    (match find pool0 o with
     | Some e => set_insert compare (entryProof e) c
     | None => c end).
Proof. reflexivity. Qed.

Lemma conflFold_in pool0 utxos : forall c q,
  In q (conflFold compare pool0 utxos c) ->
  In q c \/ exists o, In o utxos /\ getProofByUTXO pool0 o = Some q.
Proof.
  induction utxos as [|o utxos IH]; intros c q; [simpl; auto|].
  rewrite conflFold_cons. intros H. destruct (IH _ _ H) as [Hc|[k [Hk Hq]]];
    [|right; exists k; split; [right; exact Hk|exact Hq]].
  unfold getProofByUTXO. destruct (find pool0 o) eqn:E; [|auto].
  apply in_set_insert in Hc. destruct Hc as [->|Hc]; [|auto].
  right; exists o; rewrite E; simpl; auto.
Qed.

Lemma conflFold_keeps pool0 utxos : forall c q,
  In q c -> In q (conflFold compare pool0 utxos c).
Proof.
  induction utxos as [|o utxos IH]; intros c q Hq; [simpl; auto|].
  rewrite conflFold_cons. apply IH. destruct (find pool0 o); auto using set_insert_keeps.
Qed.

Lemma conflFold_keeps_equiv pool0 utxos c q :
  (In q c \/ exists q', In q' c /\ equiv compare q q' = true) ->
  In q (conflFold compare pool0 utxos c) \/
  exists q', In q' (conflFold compare pool0 utxos c) /\ equiv compare q q' = true.
Proof.
  intros [H|[q' [H1 H2]]]; [left; apply conflFold_keeps; auto|].
  right; exists q'; split; auto using conflFold_keeps.
Qed.

Lemma conflFold_covers pool0 utxos : forall c o q,
  In o utxos -> getProofByUTXO pool0 o = Some q ->
  In q (conflFold compare pool0 utxos c) \/
  exists q', In q' (conflFold compare pool0 utxos c) /\ equiv compare q q' = true.
Proof.
  induction utxos as [|o' utxos IH]; intros c o q Ho Hq; [destruct Ho|].
  rewrite !conflFold_cons. destruct Ho as [->|Ho]; [|eapply IH; eauto].
  apply conflFold_keeps_equiv. unfold getProofByUTXO in Hq.
  destruct (find pool0 o) eqn:E; [|discriminate]. inversion Hq; subst.
  apply set_insert_has.
Qed.

Lemma conflFold_distinct pool0 utxos : forall c,
  set_distinct compare c -> set_distinct compare (conflFold compare pool0 utxos c).
Proof.
  induction utxos as [|o utxos IH]; intros c Hc; [simpl; auto|].
  rewrite conflFold_cons. apply IH. destruct (find pool0 o); auto using set_insert_distinct.
Qed.

Lemma contains_id_false pool pid :
  contains_id pool pid = false -> forall e, In e pool -> getId (entryProof e) <> pid.
Proof.
  unfold contains_id. intros H e He Heq.
  assert (existsb (has_id pid) pool = true).
  { apply existsb_exists. exists e. split; auto. unfold has_id. apply N.eqb_eq; auto. }
  congruence.
Qed.

(** A rejection leaves the pool as it was and reports the conflicts read
    from the pool before the call. *)
Lemma addProofIfNoConflict_rejected pool p pool' confl :
  addProofIfNoConflict compare pool p = Some (REJECTED, pool', confl) ->
  pool' = pool /\ confl = conflFold compare pool (stakedUTXOs p) [].
Proof.
  unfold addProofIfNoConflict.
  destruct (contains_id pool (getId p)) eqn:Hcont; [discriminate|].
  pose proof (contains_id_false _ _ Hcont) as Hid.
  destruct (attach_shape compare pool p (stakedUTXOs p) [] [])
    as (Acc' & c' & Heq & H1 & H2 & H3 & H4); simpl; auto using NoDup_nil; try tauto.
  rewrite app_nil_r in Heq. rewrite Heq.
  destruct c' as [|c0 c']; [discriminate|].
  destruct (cleanup (getId p) (stakedUTXOs p) (pool ++ Acc')) eqn:Hc; [|discriminate].
  intros H; inversion H; subst; clear H.
  destruct (cleanup_shape compare pool p (stakedUTXOs p) Acc' pool' Hid H1 H2 H3 Hc)
    as [[Arest [Hr HA]] [_ Hndf]].
  split.
  - subst pool'. destruct Arest as [|e Arest]; [apply app_nil_r|].
    exfalso. destruct (HA e (or_introl eq_refl)) as [HeA Hnin].
    destruct (H4 (entryUTXO e)) as [[]|Hin]; [apply in_map; auto|]. auto.
  - pose proof (attach_confl compare pool p (stakedUTXOs p) [] [] Hndf) as Hs.
    rewrite app_nil_r, Heq in Hs. simpl in Hs. apply Hs. simpl; tauto.
Qed.

End Rejection.

(** ** Proofs listing no output twice *)

Section NoDupStakes.

Variable compare : Proof -> Proof -> bool.

Lemma attach_exact pool0 p utxos : forall Acc confl,
  NoDup (keys Acc ++ filter (freeb pool0) utxos) ->
  (forall k, In k (keys Acc) -> find pool0 k = None) ->
  attach compare p utxos (pool0 ++ Acc) confl =
  (pool0 ++ Acc ++ map (fun k => mkEntry k p) (filter (freeb pool0) utxos),
   conflFold compare pool0 utxos confl).
Proof.
  induction utxos as [|o utxos IH]; intros Acc confl Hnd Hf;
    [simpl; rewrite app_nil_r; reflexivity|].
  simpl attach. unfold emplace. cbn [entryUTXO]. cbn [filter] in *.
  rewrite conflFold_cons. destruct (find pool0 o) eqn:Eo.
  - assert (Fo : freeb pool0 o = false) by (unfold freeb; rewrite Eo; reflexivity).
    rewrite Fo in *. erewrite find_app_Some by exact Eo. cbn [entryProof]. apply IH; auto.
  - assert (Fo : freeb pool0 o = true) by (unfold freeb; rewrite Eo; reflexivity).
    rewrite Fo in *. rewrite find_app_None by exact Eo.
    assert (Hno : ~ In o (keys Acc)).
    { intros Hin. apply NoDup_remove_2 in Hnd. apply Hnd. auto with datatypes. }
    apply find_None in Hno. rewrite Hno. rewrite <- app_assoc. rewrite IH.
    + rewrite <- app_assoc. reflexivity.
    + rewrite keys_app, <- app_assoc. exact Hnd.
    + rewrite keys_app. intros k Hk. apply in_app_or in Hk.
      destruct Hk as [Hk|[Hk|[]]]; subst; auto.
Qed.

Lemma erase_found_keeps A o e : In e A -> entryUTXO e <> o -> In e (erase_found A o).
Proof.
  induction A as [|x A IH]; simpl; [auto|]. intros [He|He] Hne.
  - subst. destruct (COutPoint_eqb (entryUTXO e) o) eqn:E.
    + apply COutPoint_eqb_spec in E. contradiction.
    + left; reflexivity.
  - destruct (COutPoint_eqb (entryUTXO x) o); [auto|right; auto].
Qed.

Lemma cleanup_some pool0 p utxos : forall A,
  NoDup utxos ->
  (forall e, In e pool0 -> getId (entryProof e) <> getId p) ->
  (forall e, In e A -> entryProof e = p) ->
  (forall k, In k utxos -> find pool0 k = None -> In k (keys A)) ->
  exists r, cleanup (getId p) utxos (pool0 ++ A) = Some r.
Proof.
  induction utxos as [|o utxos IH]; intros A Hnd Hid Hp Hk; simpl; [eauto|].
  inversion Hnd as [|? ? Ho Hnd']; subst.
  destruct (find pool0 o) eqn:Eo.
  - erewrite find_app_Some by exact Eo.
    destruct (find_Some _ _ _ Eo) as [Hin _].
    destruct (N.eqb_spec (getId (entryProof p0)) (getId p)) as [E|_];
      [exfalso; apply (Hid p0); auto|].
    apply IH; auto. intros k Hk' Hf. apply Hk; auto with datatypes.
  - rewrite find_app_None by exact Eo.
    assert (HoA : In o (keys A)) by (apply Hk; auto with datatypes).
    destruct (find A o) as [it|] eqn:EA;
      [|apply find_None in EA; contradiction].
    destruct (find_Some _ _ _ EA) as [HitA _]. rewrite (Hp it HitA), N.eqb_refl.
    rewrite erase_found_app_free by exact Eo. apply IH; auto.
    + intros e He. apply Hp. eapply erase_found_incl; eauto.
    + intros k Hk' Hf. specialize (Hk k (or_intror Hk') Hf).
      unfold keys in *. apply in_map_iff in Hk. destruct Hk as [e [<- He]].
      apply in_map. apply erase_found_keeps; auto. intros Heq. rewrite Heq in Hk'. auto.
Qed.

Lemma keys_map_mk p utxos : keys (map (fun k => mkEntry k p) utxos) = utxos.
Proof. unfold keys; rewrite map_map; simpl; apply map_id. Qed.

(** Without a twice-listed output, [addProofIfNoConflict] never aborts, and
    its result is determined by the conflicts read from the pool. *)
Lemma addProofIfNoConflict_nodup_stakes pool p :
  NoDup (stakedUTXOs p) -> contains_id pool (getId p) = false ->
  addProofIfNoConflict compare pool p =
  Some (match conflFold compare pool (stakedUTXOs p) [] with
        | [] => (SUCCEED, pool ++ map (fun k => mkEntry k p)
                                    (filter (freeb pool) (stakedUTXOs p)), [])
        | c => (REJECTED, pool, c)
        end).
Proof.
  intros Hnd Hcont.
  assert (Hndf : NoDup (keys [] ++ filter (freeb pool) (stakedUTXOs p)))
    by (apply NoDup_filter; exact Hnd).
  pose proof (attach_exact pool p (stakedUTXOs p) [] [] Hndf) as Ha.
  rewrite app_nil_r in Ha. simpl in Ha.
  destruct (conflFold compare pool (stakedUTXOs p) []) as [|c0 c] eqn:Ec.
  - unfold addProofIfNoConflict. rewrite Hcont, Ha by (simpl; tauto). reflexivity.
  - destruct (addProofIfNoConflict compare pool p) as [[[st r] c']|] eqn:E.
    + unfold addProofIfNoConflict in E. rewrite Hcont, Ha in E by (simpl; tauto).
      destruct (cleanup _ _ _) eqn:Hc in E; [|discriminate]. inversion E; subst.
      destruct (addProofIfNoConflict_rejected compare pool p r (c0 :: c)) as [-> _].
      * unfold addProofIfNoConflict. rewrite Hcont, Ha by (simpl; tauto). rewrite Hc.
        reflexivity.
      * reflexivity.
    + exfalso. unfold addProofIfNoConflict in E. rewrite Hcont, Ha in E by (simpl; tauto).
      destruct (cleanup_some pool p (stakedUTXOs p)
                 (map (fun k => mkEntry k p) (filter (freeb pool) (stakedUTXOs p))) Hnd)
        as [r Hr].
      * apply contains_id_false; exact Hcont.
      * intros e He. apply in_map_iff in He. destruct He as [k [<- _]]. reflexivity.
      * intros k Hk Hf. rewrite keys_map_mk. apply filter_In. split; [auto|].
        unfold freeb; rewrite Hf; reflexivity.
      * rewrite Hr in E. discriminate.
Qed.

End NoDupStakes.

(** ** Removing the conflicting proofs *)

Lemma removeProofs_in pool qs e :
  In e (removeProofs pool qs) <->
  In e pool /\ forall q, In q qs -> getId (entryProof e) <> getId q.
Proof.
  unfold removeProofs. revert pool; induction qs as [|q qs IH]; intros pool; simpl.
  - intuition.
  - rewrite IH. simpl. rewrite filter_In. unfold has_id.
    destruct (N.eqb_spec (getId (entryProof e)) (getId q)) as [E|E]; simpl.
    + split; [intros [[_ H] _]; discriminate|]. intros [_ H]. exfalso; apply (H q); auto.
    + split.
      * intros [[He _] H]. split; [auto|]. intros q' [<-|Hq']; auto.
      * intros [He H]. split; [split; auto|]. intros q' Hq'; apply H; auto.
Qed.

Lemma find_nodup_in pool e :
  NoDup (keys pool) -> In e pool -> find pool (entryUTXO e) = Some e.
Proof.
  induction pool as [|x pool IH]; simpl; [tauto|]. intros Hnd [->|He].
  - replace (COutPoint_eqb (entryUTXO e) (entryUTXO e)) with true
      by (symmetry; apply COutPoint_eqb_spec; reflexivity). reflexivity.
  - inversion Hnd as [|? ? Hx Hnd']; subst.
    destruct (COutPoint_eqb (entryUTXO x) (entryUTXO e)) eqn:E; [|auto].
    apply COutPoint_eqb_spec in E. exfalso; apply Hx. rewrite E. apply in_map; auto.
Qed.

Lemma contains_id_true pool pid :
  contains_id pool pid = true <-> exists e, In e pool /\ getId (entryProof e) = pid.
Proof.
  unfold contains_id, has_id. rewrite existsb_exists.
  split; intros [e [He H]]; exists e; split; auto; apply N.eqb_eq; auto.
Qed.

Lemma find_map_mk p utxos o :
  In o utxos -> find (map (fun k => mkEntry k p) utxos) o = Some (mkEntry o p).
Proof.
  induction utxos as [|k utxos IH]; simpl; [tauto|]. intros [->|Ho].
  - replace (COutPoint_eqb o o) with true by (symmetry; apply COutPoint_eqb_spec; auto).
    reflexivity.
  - destruct (COutPoint_eqb k o) eqn:E; [|auto]. apply COutPoint_eqb_spec in E; subst; auto.
Qed.

Section HeadMin.

Variable compare : Proof -> Proof -> bool.
Hypothesis Hswo : strict_weak_order compare.

Lemma sorted_insert_head_min x s :
  head_min compare s -> head_min compare (sorted_insert compare x s).
Proof.
  destruct Hswo as [Hirr [Htr _]].
  destruct s as [|y s]; simpl.
  - intros _ z [Hz|[]]. subst z. apply Hirr.
  - intros Hh. destruct (compare x y) eqn:Exy; simpl.
    + intros z [Hz|[Hz|Hz]].
      * subst z. apply Hirr.
      * subst z. destruct (compare y x) eqn:E; auto.
        rewrite <- (Hirr y). symmetry; eauto.
      * destruct (compare z x) eqn:E; auto.
        rewrite <- (Hh z (or_intror Hz)). symmetry; eauto.
    + intros z [Hz|Hz]; [apply Hh; left; exact Hz|].
      apply in_sorted_insert in Hz. destruct Hz as [Hz|Hz]; [subst z; exact Exy|].
      apply Hh; right; exact Hz.
Qed.

Lemma conflFold_head_min pool0 utxos : forall c,
  head_min compare c -> head_min compare (conflFold compare pool0 utxos c).
Proof.
  induction utxos as [|o utxos IH]; intros c Hc; [exact Hc|].
  rewrite conflFold_cons. apply IH. destruct (find pool0 o); [|exact Hc].
  unfold set_insert. destruct (existsb _ _); [exact Hc|]. apply sorted_insert_head_min; auto.
Qed.

End HeadMin.

(** ** Preference resolution *)

Section Preference.

Variable compare : Proof -> Proof -> bool.

Lemma conflFold_all_free pool0 utxos : forall c,
  (forall o, In o utxos -> find pool0 o = None) -> conflFold compare pool0 utxos c = c.
Proof.
  induction utxos as [|o utxos IH]; intros c H; [reflexivity|].
  rewrite conflFold_cons, (H o (or_introl eq_refl)). apply IH. intros; apply H; right; auto.
Qed.

Lemma conflFold_nonempty pool0 utxos o q :
  In o utxos -> getProofByUTXO pool0 o = Some q -> conflFold compare pool0 utxos [] <> [].
Proof.
  intros Ho Hq Hc. destruct (conflFold_covers compare pool0 utxos [] o q Ho Hq)
    as [H|[q' [H _]]]; rewrite Hc in H; destruct H.
Qed.

Lemma conflFold_ids pool0 utxos o q :
  ties_by_id compare ->
  In o utxos -> getProofByUTXO pool0 o = Some q ->
  exists q', In q' (conflFold compare pool0 utxos []) /\ getId q' = getId q.
Proof.
  intros Hties Ho Hq. destruct (conflFold_covers compare pool0 utxos [] o q Ho Hq)
    as [H|[q' [H Heq]]]; [exists q; auto|exists q'; split; auto].
  unfold equiv in Heq. apply andb_true_iff in Heq. destruct Heq as [H1 H2].
  apply negb_true_iff in H1, H2. symmetry; apply Hties; auto.
Qed.

Lemma holder_id_differs pool p o q :
  contains_id pool (getId p) = false -> getProofByUTXO pool o = Some q -> getId q <> getId p.
Proof.
  intros Hc Hq. unfold getProofByUTXO in Hq. destruct (find pool o) eqn:E; [|discriminate].
  inversion Hq; subst. destruct (find_Some _ _ _ E) as [He _].
  exact (contains_id_false _ _ Hc p0 He).
Qed.

Lemma addProofIfPreferred_wins pool A O B :
  ties_by_id compare -> NoDup (keys pool) ->
  NoDup (stakedUTXOs A) -> contains_id pool (getId A) = false ->
  In O (stakedUTXOs A) -> getProofByUTXO pool O = Some B ->
  (forall o q, In o (stakedUTXOs A) -> getProofByUTXO pool o = Some q -> compare A q = true) ->
  exists pool' confl,
    addProofIfPreferred compare pool A = Some (SUCCEED, pool', confl) /\
    contains_id pool' (getId B) = false /\ getProofByUTXO pool' O = Some A.
Proof.
  intros Hties Hkeys Hnd Hcont HO HB Hpref.
  pose proof (addProofIfNoConflict_nodup_stakes compare pool A Hnd Hcont) as H1.
  pose proof (conflFold_nonempty pool (stakedUTXOs A) O B HO HB) as Hne.
  pose proof (fun o q => conflFold_ids pool (stakedUTXOs A) o q Hties) as Hids.
  pose proof (conflFold_in compare pool (stakedUTXOs A) []) as Hin.
  destruct (conflFold compare pool (stakedUTXOs A) []) as [|best rest] eqn:Ec;
    [contradiction|clear Hne].
  unfold addProofIfPreferred. rewrite H1.
  assert (Hbest : compare A best = true).
  { destruct (Hin best (or_introl eq_refl)) as [[]|[o [Ho Hq]]]. eapply Hpref; eauto. }
  rewrite Hbest.
  set (pool2 := removeProofs pool (best :: rest)).
  assert (Hfree : forall o, In o (stakedUTXOs A) -> find pool2 o = None).
  { intros o Ho. apply find_None. intros Hk. unfold keys in Hk. apply in_map_iff in Hk.
    destruct Hk as [e [He1 He2]]. apply removeProofs_in in He2. destruct He2 as [He Hne].
    assert (Hq : getProofByUTXO pool o = Some (entryProof e)).
    { unfold getProofByUTXO. rewrite <- He1, (find_nodup_in pool e Hkeys He). reflexivity. }
    destruct (Hids o _ Ho Hq) as [q' [Hq' Hid]]. exact (Hne q' Hq' (eq_sym Hid)). }
  assert (Hcont2 : contains_id pool2 (getId A) = false).
  { destruct (contains_id pool2 (getId A)) eqn:E; [|reflexivity].
    apply contains_id_true in E. destruct E as [e [He Hid]].
    apply removeProofs_in in He. destruct He as [He _].
    exfalso; exact (contains_id_false _ _ Hcont e He Hid). }
  rewrite (addProofIfNoConflict_nodup_stakes compare pool2 A Hnd Hcont2).
  rewrite (conflFold_all_free pool2 (stakedUTXOs A) [] Hfree).
  eexists; eexists; split; [reflexivity|split].
  - destruct (contains_id _ (getId B)) eqn:E; [|reflexivity]. exfalso.
    apply contains_id_true in E. destruct E as [e [He Hid]].
    apply in_app_or in He. destruct He as [He|He].
    + apply removeProofs_in in He. destruct He as [_ Hne].
      destruct (Hids O B HO HB) as [q' [Hq' Hq'id]].
      apply (Hne q' Hq'). congruence.
    + apply in_map_iff in He. destruct He as [k [<- _]]. simpl in Hid.
      exact (holder_id_differs pool A O B Hcont HB (eq_sym Hid)).
  - unfold getProofByUTXO. rewrite find_app_None by (apply Hfree; exact HO).
    rewrite find_map_mk; [reflexivity|]. apply filter_In. split; [exact HO|].
    unfold freeb. rewrite (Hfree O HO). reflexivity.
Qed.

Lemma addProofIfPreferred_loses pool A O B :
  strict_weak_order compare ->
  NoDup (stakedUTXOs A) -> contains_id pool (getId A) = false ->
  In O (stakedUTXOs A) -> getProofByUTXO pool O = Some B -> compare B A = true ->
  exists confl, addProofIfPreferred compare pool A = Some (REJECTED, pool, confl).
Proof.
  intros Hswo Hnd Hcont HO HB HBA.
  pose proof Hswo as [Hirr [Htr Hneg]].
  pose proof (addProofIfNoConflict_nodup_stakes compare pool A Hnd Hcont) as H1.
  pose proof (conflFold_nonempty pool (stakedUTXOs A) O B HO HB) as Hne.
  pose proof (conflFold_covers compare pool (stakedUTXOs A) [] O B HO HB) as Hcov.
  pose proof (conflFold_head_min compare Hswo pool (stakedUTXOs A) [] I) as Hhead.
  destruct (conflFold compare pool (stakedUTXOs A) []) as [|best rest] eqn:Ec;
    [contradiction|clear Hne].
  unfold addProofIfPreferred. rewrite H1. simpl in Hhead.
  destruct (compare A best) eqn:EA; [|eexists; reflexivity]. exfalso.
  assert (HBb : compare B best = true) by eauto.
  destruct Hcov as [HinB|[q' [Hq' Heq]]].
  - rewrite (Hhead B HinB) in HBb. discriminate.
  - unfold equiv in Heq. apply andb_true_iff in Heq. destruct Heq as [E1 E2].
    apply negb_true_iff in E1, E2.
    destruct (Hneg B q' best HBb) as [H|H]; [congruence|].
    rewrite (Hhead q' Hq') in H. discriminate.
Qed.

End Preference.

Lemma compareById_strict_weak_order : strict_weak_order compareById.
Proof.
  unfold strict_weak_order, compareById. repeat split.
  - intros a. apply N.ltb_irrefl.
  - intros a b c H1 H2. apply N.ltb_lt in H1, H2. apply N.ltb_lt. lia.
  - intros a b c H. apply N.ltb_lt in H.
    destruct (N.ltb_spec (getId a) (getId b)); [auto|].
    right. apply N.ltb_lt. lia.
Qed.

Lemma compareById_ties_by_id : ties_by_id compareById.
Proof.
  unfold ties_by_id, compareById. intros a b H1 H2.
  apply N.ltb_ge in H1, H2. lia.
Qed.

(** ** A successful insertion registers the proof id *)

Section Success.

Variable compare : Proof -> Proof -> bool.

Lemma set_insert_nonempty x s : set_insert compare x s <> [].
Proof.
  unfold set_insert. destruct (existsb (equiv compare x) s) eqn:E.
  - destruct s; [discriminate|congruence].
  - destruct s; simpl; [discriminate|]. destruct (compare x p); discriminate.
Qed.

Lemma attach_keeps p utxos : forall pool confl e,
  In e pool -> In e (fst (attach compare p utxos pool confl)).
Proof.
  induction utxos as [|o utxos IH]; intros pool confl e He; simpl; [exact He|].
  unfold emplace. destruct (find pool (entryUTXO (mkEntry o p))); simpl; apply IH;
    auto with datatypes.
Qed.

Lemma attach_confl_nonempty p utxos : forall pool confl,
  confl <> [] -> snd (attach compare p utxos pool confl) <> [].
Proof.
  induction utxos as [|o utxos IH]; intros pool confl Hc; simpl; [exact Hc|].
  unfold emplace. destruct (find pool (entryUTXO (mkEntry o p))); simpl; apply IH;
    auto using set_insert_nonempty.
Qed.

Lemma rejected_not_succeed (r : option ProofPool) (c : ConflictingProofSet) pool1
    (c' : ConflictingProofSet) :
  match r return option (AddProofStatus * ProofPool * ConflictingProofSet) with
  | Some pool2 => Some (REJECTED, pool2, c) | None => None end =
  Some (SUCCEED, pool1, c') -> False.
Proof. destruct r; intros E; discriminate E. Qed.

Lemma addProofIfNoConflict_succeed_registers pool p pool1 c :
  getStakes p <> [] ->
  addProofIfNoConflict compare pool p = Some (SUCCEED, pool1, c) ->
  contains_id pool1 (getId p) = true.
Proof.
  intros Hne. unfold addProofIfNoConflict.
  destruct (contains_id pool (getId p)); [intros E; discriminate E|].
  unfold stakedUTXOs. destruct (getStakes p) as [|s ss]; [contradiction|]. simpl.
  unfold emplace. simpl. destruct (find pool (getUTXO (getStake s))) as [e|].
  - pose proof (attach_confl_nonempty p (map (fun s => getUTXO (getStake s)) ss) pool
                  (set_insert compare (entryProof e) []) (set_insert_nonempty _ _)) as H.
    destruct (attach _ _ _ _ _) as [pl [|c0 cs]]; [contradiction|].
    intros E; exfalso; eapply rejected_not_succeed; exact E.
  - pose proof (attach_keeps p (map (fun s => getUTXO (getStake s)) ss)
                  (pool ++ [mkEntry (getUTXO (getStake s)) p]) []
                  (mkEntry (getUTXO (getStake s)) p)) as H.
    destruct (attach _ _ _ _ _) as [pl [|c0 cs]].
    + intros E; inversion E; subst. apply contains_id_true.
      eexists; split; [apply H; auto with datatypes|reflexivity].
    + intros E; exfalso; eapply rejected_not_succeed; exact E.
Qed.

End Success.

(** Key uniqueness is an invariant of the reachable pools. *)
Lemma reachable_keys_nodup (compare : Proof -> Proof -> bool) (pool : ProofPool) :
  reachable compare pool -> NoDup (keys pool).
Proof.
  induction 1 as [|pool c pool' Hr IH Hrun]; [constructor|].
  destruct c as [p|p|p]; simpl in Hrun.
  - destruct (addProofIfNoConflict compare pool p) as [[[st pl] cf]|] eqn:E; [|discriminate].
    inversion Hrun; subst. eapply addProofIfNoConflict_nodup; eauto.
  - destruct (addProofIfPreferred compare pool p) as [[[st pl] cf]|] eqn:E; [|discriminate].
    inversion Hrun; subst. eapply addProofIfPreferred_nodup; eauto.
  - inversion Hrun; subst. apply removeProof_nodup; auto.
Qed.

(** ** Helper lemmas on filters and lookups *)

Lemma filter_keep_all {A : Type} (f : A -> bool) (l : list A) :
  (forall x, In x l -> f x = true) -> filter f l = l.
Proof.
  induction l as [|x l IH]; simpl; intros H; [reflexivity|].
  rewrite (H x (or_introl eq_refl)). f_equal. apply IH; auto.
Qed.

Lemma getProofByUTXO_None pool o : getProofByUTXO pool o = None <-> find pool o = None.
Proof.
  unfold getProofByUTXO. destruct (find pool o); split; intros H; discriminate H || reflexivity.
Qed.

Lemma filter_freeb_all pool utxos :
  (forall o, In o utxos -> find pool o = None) -> filter (freeb pool) utxos = utxos.
Proof.
  intros H. apply filter_keep_all. intros o Ho. unfold freeb. rewrite (H o Ho). reflexivity.
Qed.

(** ** Claims *)

(** C1: from the empty pool, after any sequence of [addProofIfNoConflict],
    [addProofIfPreferred] and [removeProof] calls that return, no two live
    entries of the pool share a staked output. *)
Theorem reachable_outputs_unique (compare : Proof -> Proof -> bool) (pool : ProofPool) :
  reachable compare pool -> NoDup (keys pool).
Proof. apply reachable_keys_nodup. Qed.

Lemma reachable_outputs_unique_witness :
  reachable compareById (poolB ++ [mkEntry O2 proofC]) /\
  NoDup (keys (poolB ++ [mkEntry O2 proofC])).
Proof.
  assert (H : reachable compareById (poolB ++ [mkEntry O2 proofC])).
  { apply (reachable_step compareById poolB (CallAddProofIfPreferred proofC));
      [|vm_compute; reflexivity].
    apply (reachable_step compareById [] (CallAddProofIfNoConflict proofB));
      [constructor|vm_compute; reflexivity]. }
  split; [exact H|]. apply (reachable_outputs_unique compareById); exact H.
Defined.

(** C2: when [addProofIfNoConflict] returns [REJECTED], the pool (the one
    entry set behind both views) is the pool before the call; every reported
    conflicting proof holds one of the candidate's outputs in that pool;
    every proof holding one of them is reported (itself, or a proof the set
    treats as the same key); and no two reported proofs are the same key of
    the set. *)
Theorem addProofIfNoConflict_rejected_atomic (compare : Proof -> Proof -> bool)
    (pool : ProofPool) (p : Proof) (pool' : ProofPool) (confl : ConflictingProofSet) :
  addProofIfNoConflict compare pool p = Some (REJECTED, pool', confl) ->
  pool' = pool /\
  (forall q, In q confl ->
     exists o, In o (stakedUTXOs p) /\ getProofByUTXO pool o = Some q) /\
  (forall o q, In o (stakedUTXOs p) -> getProofByUTXO pool o = Some q ->
     In q confl \/ exists q', In q' confl /\ equiv compare q q' = true) /\
  set_distinct compare confl.
Proof.
  intros H. destruct (addProofIfNoConflict_rejected compare pool p pool' confl H) as [-> ->].
  split; [reflexivity|]. split; [|split].
  - intros q Hq. destruct (conflFold_in compare pool (stakedUTXOs p) [] q Hq) as [[]|Ho].
    exact Ho.
  - intros o q Ho Hq. eapply conflFold_covers; eauto.
  - apply conflFold_distinct. constructor.
Qed.

Lemma addProofIfNoConflict_rejected_atomic_witness :
  addProofIfNoConflict compareById poolB proofA = Some (REJECTED, poolB, [proofB]) /\
  poolB = poolB /\
  (forall q, In q [proofB] ->
     exists o, In o (stakedUTXOs proofA) /\ getProofByUTXO poolB o = Some q) /\
  (forall o q, In o (stakedUTXOs proofA) -> getProofByUTXO poolB o = Some q ->
     In q [proofB] \/ exists q', In q' [proofB] /\ equiv compareById q q' = true) /\
  set_distinct compareById [proofB].
Proof.
  assert (H : addProofIfNoConflict compareById poolB proofA = Some (REJECTED, poolB, [proofB]))
    by (vm_compute; reflexivity).
  split; [exact H|]. apply (addProofIfNoConflict_rejected_atomic compareById); exact H.
Defined.

(** C3 (as amended): let [A] list no output twice and carry an id no entry
    of a reachable pool has, and let [A] stake an output [O] that the pool
    gives to [B].  Under a comparator that is a strict weak order breaking
    ties by proof id: if [A] is preferred over every proof holding one of
    its outputs, [addProofIfPreferred(A)] returns [SUCCEED], no entry of [B]
    remains and [getProof(O)] is [A]; if [B] is preferred over [A], it
    returns [REJECTED], the pool is unchanged and [B] still holds [O]. *)
Theorem addProofIfPreferred_resolution (compare : Proof -> Proof -> bool)
    (pool : ProofPool) (A : Proof) (O : COutPoint) (B : Proof) :
  strict_weak_order compare -> ties_by_id compare -> reachable compare pool ->
  NoDup (stakedUTXOs A) -> contains_id pool (getId A) = false ->
  In O (stakedUTXOs A) -> getProofByUTXO pool O = Some B ->
  ((forall o q, In o (stakedUTXOs A) -> getProofByUTXO pool o = Some q ->
      compare A q = true) ->
   exists pool' confl,
     addProofIfPreferred compare pool A = Some (SUCCEED, pool', confl) /\
     contains_id pool' (getId B) = false /\ getProofByUTXO pool' O = Some A) /\
  (compare B A = true ->
   exists confl,
     addProofIfPreferred compare pool A = Some (REJECTED, pool, confl) /\
     getProofByUTXO pool O = Some B).
Proof.
  intros Hswo Hties Hr Hnd Hcont HO HB. split.
  - intros Hpref. eapply addProofIfPreferred_wins; eauto.
    apply (reachable_keys_nodup compare); exact Hr.
  - intros HBA. destruct (addProofIfPreferred_loses compare pool A O B Hswo Hnd Hcont HO HB HBA)
      as [confl H]. exists confl; split; auto.
Qed.

Lemma addProofIfPreferred_resolution_witness :
  strict_weak_order compareById /\ ties_by_id compareById /\
  reachable compareById poolB /\
  NoDup (stakedUTXOs proofA) /\ contains_id poolB (getId proofA) = false /\
  In O1 (stakedUTXOs proofA) /\ getProofByUTXO poolB O1 = Some proofB /\
  (((forall o q, In o (stakedUTXOs proofA) -> getProofByUTXO poolB o = Some q ->
       compareById proofA q = true) ->
    exists pool' confl,
      addProofIfPreferred compareById poolB proofA = Some (SUCCEED, pool', confl) /\
      contains_id pool' (getId proofB) = false /\ getProofByUTXO pool' O1 = Some proofA) /\
   (compareById proofB proofA = true ->
    exists confl,
      addProofIfPreferred compareById poolB proofA = Some (REJECTED, poolB, confl) /\
      getProofByUTXO poolB O1 = Some proofB)).
Proof.
  assert (Hr : reachable compareById poolB).
  { apply (reachable_step compareById [] (CallAddProofIfNoConflict proofB));
      [constructor|vm_compute; reflexivity]. }
  assert (Hnd : NoDup (stakedUTXOs proofA)).
  { constructor; [simpl; intros [H|[]]; discriminate H|].
    constructor; [simpl; tauto|constructor]. }
  assert (Hc : contains_id poolB (getId proofA) = false) by (vm_compute; reflexivity).
  assert (HO : In O1 (stakedUTXOs proofA)) by (simpl; auto).
  assert (HB : getProofByUTXO poolB O1 = Some proofB) by (vm_compute; reflexivity).
  split; [exact compareById_strict_weak_order|]. split; [exact compareById_ties_by_id|].
  do 5 (split; [assumption|]).
  exact (addProofIfPreferred_resolution compareById poolB proofA O1 proofB
           compareById_strict_weak_order compareById_ties_by_id Hr Hnd Hc HO HB).
Defined.

(** C3, counterexample: [proofA] (id 3) stakes [O1], held by [proofB]
    (id 5), and is preferred over it; but [proofA] also stakes [O2], held by
    [proofC] (id 1), which is preferred over [proofA].  The best conflict
    is [proofC], so [addProofIfPreferred(proofA)] rejects. *)
Lemma addProofIfPreferred_best_conflict_decides :
  reachable compareById (poolB ++ [mkEntry O2 proofC]) /\
  In O1 (stakedUTXOs proofA) /\
  getProofByUTXO (poolB ++ [mkEntry O2 proofC]) O1 = Some proofB /\
  compareById proofA proofB = true /\
  addProofIfPreferred compareById (poolB ++ [mkEntry O2 proofC]) proofA =
    Some (REJECTED, poolB ++ [mkEntry O2 proofC], [proofC; proofB]).
Proof.
  split.
  - apply (reachable_step compareById poolB (CallAddProofIfNoConflict proofC));
      [|vm_compute; reflexivity].
    apply (reachable_step compareById [] (CallAddProofIfNoConflict proofB));
      [constructor|vm_compute; reflexivity].
  - split; [simpl; auto|]. vm_compute. repeat split.
Qed.

(** C4: the retry in [addProofIfPreferred] does not always succeed.  From
    the reachable pool where [proofB] holds [O1], [proofD] (id 2, preferred)
    lists [O1] twice: the first attempt rejects it with [proofB] as the
    only conflict, [proofB] is removed, and the retry aborts on the
    assertion of the cleanup loop, so the whole call aborts. *)
Theorem addProofIfPreferred_retry_aborts :
  reachable compareById poolB /\
  addProofIfNoConflict compareById poolB proofD = Some (REJECTED, poolB, [proofB]) /\
  compareById proofD proofB = true /\
  removeProofs poolB [proofB] = [] /\
  addProofIfNoConflict compareById [] proofD = None /\
  addProofIfPreferred compareById poolB proofD = None.
Proof.
  split.
  - apply (reachable_step compareById [] (CallAddProofIfNoConflict proofB));
      [constructor|vm_compute; reflexivity].
  - vm_compute. repeat split.
Qed.

(** C5: when the proof's id is already in the pool, [addProofIfNoConflict]
    returns [DUPLICATED], leaves the pool as it was and the conflict set
    empty.  Hence a proof (which stakes at least one output) just inserted
    with [SUCCEED] is [DUPLICATED] on a second insertion, which returns the
    pool as it was; and inserting such a proof twice into a pool where it
    has no conflict (its id absent, its outputs free and listed once)
    returns [SUCCEED] then [DUPLICATED], the pool size unchanged by the
    second call. *)
Theorem addProofIfNoConflict_duplicated (compare : Proof -> Proof -> bool)
    (pool : ProofPool) (p : Proof) :
  (contains_id pool (getId p) = true ->
   addProofIfNoConflict compare pool p = Some (DUPLICATED, pool, [])) /\
  (forall pool1 c, getStakes p <> [] ->
   addProofIfNoConflict compare pool p = Some (SUCCEED, pool1, c) ->
   addProofIfNoConflict compare pool1 p = Some (DUPLICATED, pool1, [])) /\
  (getStakes p <> [] -> contains_id pool (getId p) = false -> NoDup (stakedUTXOs p) ->
   (forall o, In o (stakedUTXOs p) -> getProofByUTXO pool o = None) ->
   exists pool1,
     addProofIfNoConflict compare pool p = Some (SUCCEED, pool1, []) /\
     addProofIfNoConflict compare pool1 p = Some (DUPLICATED, pool1, []) /\
     length pool1 = length pool + length (getStakes p)).
Proof.
  assert (Hsecond : forall pool1 c, getStakes p <> [] ->
            addProofIfNoConflict compare pool p = Some (SUCCEED, pool1, c) ->
            addProofIfNoConflict compare pool1 p = Some (DUPLICATED, pool1, [])).
  { intros pool1 c Hne H.
    unfold addProofIfNoConflict at 1.
    rewrite (addProofIfNoConflict_succeed_registers compare pool p pool1 c Hne H).
    reflexivity. }
  split; [|split; [exact Hsecond|]].
  - intros H. unfold addProofIfNoConflict. rewrite H. reflexivity.
  - intros Hne Hc Hnd Hf.
    assert (Hf' : forall o, In o (stakedUTXOs p) -> find pool o = None)
      by (intros o Ho; apply getProofByUTXO_None; auto).
    assert (H1 : addProofIfNoConflict compare pool p =
                 Some (SUCCEED, pool ++ map (fun k => mkEntry k p) (stakedUTXOs p), [])).
    { rewrite (addProofIfNoConflict_nodup_stakes compare pool p Hnd Hc).
      rewrite (conflFold_all_free compare pool (stakedUTXOs p) [] Hf'), (filter_freeb_all pool _ Hf').
      reflexivity. }
    eexists; split; [exact H1|split; [exact (Hsecond _ _ Hne H1)|]].
    rewrite length_app, length_map. unfold stakedUTXOs. rewrite length_map. reflexivity.
Qed.

Lemma addProofIfNoConflict_duplicated_witness :
  contains_id poolB (getId proofB) = true /\ getStakes proofB <> [] /\
  addProofIfNoConflict compareById [] proofB = Some (SUCCEED, poolB, []) /\
  contains_id [] (getId proofB) = false /\ NoDup (stakedUTXOs proofB) /\
  (forall o, In o (stakedUTXOs proofB) -> getProofByUTXO [] o = None) /\
  (addProofIfNoConflict compareById poolB proofB = Some (DUPLICATED, poolB, []) /\
   addProofIfNoConflict compareById poolB proofB = Some (DUPLICATED, poolB, []) /\
   exists pool1,
     addProofIfNoConflict compareById [] proofB = Some (SUCCEED, pool1, []) /\
     addProofIfNoConflict compareById pool1 proofB = Some (DUPLICATED, pool1, []) /\
     length pool1 = length ([] : ProofPool) + length (getStakes proofB)).
Proof.
  assert (H1 : contains_id poolB (getId proofB) = true) by (vm_compute; reflexivity).
  assert (H2 : getStakes proofB <> []) by (simpl; discriminate).
  assert (H3 : addProofIfNoConflict compareById [] proofB = Some (SUCCEED, poolB, []))
    by (vm_compute; reflexivity).
  assert (H4 : contains_id [] (getId proofB) = false) by reflexivity.
  assert (H5 : NoDup (stakedUTXOs proofB)) by (constructor; [simpl; tauto|constructor]).
  assert (H6 : forall o, In o (stakedUTXOs proofB) -> getProofByUTXO [] o = None)
    by (intros o _; reflexivity).
  do 6 (split; [assumption|]). split; [|split].
  - exact (proj1 (addProofIfNoConflict_duplicated compareById poolB proofB) H1).
  - exact (proj1 (proj2 (addProofIfNoConflict_duplicated compareById [] proofB)) poolB [] H2 H3).
  - exact (proj2 (proj2 (addProofIfNoConflict_duplicated compareById [] proofB)) H2 H4 H5 H6).
Defined.

(** C6: a second [rescan] right after a first one, on the registry the
    first one produced, leaves that registry (and the emptied pool) as
    they are, whatever [registerProof] does to the registry. *)
Theorem rescan_twice (PeerRegistry : Type)
    (registerProof : PeerRegistry -> Proof -> PeerRegistry)
    (pool : ProofPool) (peerManager : PeerRegistry) :
  let '(pm1, pool1) := rescan PeerRegistry registerProof pool peerManager in
  rescan PeerRegistry registerProof pool1 pm1 = (pm1, pool1).
Proof. reflexivity. Qed.

(** C7: [removeProof(proof)] keeps exactly the entries carrying another
    id, so neither view finds the proof's id afterwards; it returns true
    iff some entry carried the id, and when it returns false the pool is
    unchanged. *)
Theorem removeProof_spec (pool : ProofPool) (p : Proof) :
  let '(pool', removed) := removeProof pool p in
  (forall e, In e pool' <-> In e pool /\ getId (entryProof e) <> getId p) /\
  getProofById pool' (getId p) = None /\
  (forall o q, getProofByUTXO pool' o = Some q -> getId q <> getId p) /\
  (removed = true <-> contains_id pool (getId p) = true) /\
  (removed = false -> pool' = pool).
Proof.
  unfold removeProof, erase_id.
  assert (Hin : forall e, In e (filter (fun e => negb (has_id (getId p) e)) pool) <->
                          In e pool /\ getId (entryProof e) <> getId p).
  { intros e. rewrite filter_In. unfold has_id.
    destruct (N.eqb_spec (getId (entryProof e)) (getId p)); simpl; intuition discriminate. }
  split; [exact Hin|]. split; [|split; [|split]].
  - unfold getProofById.
    destruct (List.find (has_id (getId p)) _) as [e|] eqn:E; [|reflexivity].
    apply find_some in E. destruct E as [E1 E2]. apply Hin in E1.
    unfold has_id in E2. apply N.eqb_eq in E2. tauto.
  - intros o q Hq. unfold getProofByUTXO in Hq.
    destruct (find _ o) eqn:E; [|discriminate]. inversion Hq; subst.
    apply find_Some in E. destruct E as [E _]. apply Hin in E. tauto.
  - rewrite negb_true_iff, Nat.eqb_neq. unfold contains_id.
    destruct (existsb (has_id (getId p)) pool) eqn:E.
    + split; [reflexivity|]. intros _ Hl. apply length_zero_iff_nil in Hl.
      apply existsb_exists in E. destruct E as [e [He Hh]].
      assert (In e (filter (has_id (getId p)) pool)) by (apply filter_In; auto).
      rewrite Hl in H. destruct H.
    + split; [|discriminate]. intros Hl. exfalso; apply Hl.
      apply length_zero_iff_nil. destruct (filter (has_id (getId p)) pool) as [|e l] eqn:F;
        [reflexivity|]. exfalso.
      assert (He : In e (filter (has_id (getId p)) pool)) by (rewrite F; left; auto).
      apply filter_In in He. destruct He as [He Hh].
      assert (existsb (has_id (getId p)) pool = true) by (apply existsb_exists; eauto).
      congruence.
  - rewrite negb_false_iff, Nat.eqb_eq. intros Hl. apply length_zero_iff_nil in Hl.
    clear Hin. induction pool as [|x pool IH]; [reflexivity|]. simpl in *.
    destruct (has_id (getId p) x); simpl in *; [discriminate|]. f_equal; auto.
Qed.

Lemma removeProof_spec_witness :
  removeProof poolB proofA = (poolB, false) /\
  removeProof poolB proofB = ([], true) /\
  (poolB = poolB /\ ([] : ProofPool) = []).
Proof.
  split; [reflexivity|]. split; [reflexivity|].
  pose proof (removeProof_spec poolB proofA) as H1.
  pose proof (removeProof_spec poolB proofB) as H2.
  replace (removeProof poolB proofA) with (poolB, false) in H1 by reflexivity.
  replace (removeProof poolB proofB) with (([] : ProofPool), true) in H2 by reflexivity.
  split; [apply H1; reflexivity|reflexivity].
Defined.

(** C8: [removePeer(i)] is [rescorePeer(i, 0)]: same slots, slot count and
    fragmentation, whatever [rescorePeer] does. *)
Theorem removePeer_is_rescore_zero
    (rescorePeer : PeerManager -> nat -> N -> PeerManager) (pm : PeerManager) (i : nat) :
  removePeer rescorePeer pm i = rescorePeer pm i 0%N /\
  slots (removePeer rescorePeer pm i) = slots (rescorePeer pm i 0%N) /\
  slotCount (removePeer rescorePeer pm i) = slotCount (rescorePeer pm i 0%N) /\
  fragmentation (removePeer rescorePeer pm i) = fragmentation (rescorePeer pm i 0%N).
Proof. repeat split. Qed.

(** C9: for a slot with [start <= stop], exactly one of [contains x],
    [precedes x] and [follows x] holds; for a slot with [start > stop],
    [precedes x] and [follows x] can hold together. *)
Theorem slot_trichotomy :
  (forall (s : Slot) (x : N), (start s <= stop s)%N ->
     exactly_one (contains s x) (precedes s x) (follows s x) = true) /\
  (exists (s : Slot) (x : N), precedes s x = true /\ follows s x = true).
Proof.
  split.
  - intros [a b] x H. unfold exactly_one, contains, precedes, follows; simpl in *.
    destruct (N.leb_spec a x), (N.ltb_spec x b), (N.leb_spec b x), (N.ltb_spec x a);
      simpl; try reflexivity; lia.
  - exists (mkSlot 5 2), 3%N. split; reflexivity.
Qed.

Lemma slot_trichotomy_witness :
  (start (mkSlot 10 30) <= stop (mkSlot 10 30))%N /\
  exactly_one (contains (mkSlot 10 30) 15) (precedes (mkSlot 10 30) 15)
    (follows (mkSlot 10 30) 15) = true.
Proof.
  assert (H : (start (mkSlot 10 30) <= stop (mkSlot 10 30))%N) by (simpl; lia).
  split; [exact H|]. exact (proj1 slot_trichotomy (mkSlot 10 30) 15%N H).
Defined.

(** C10: a proof listing an output twice, on a pool where that output is
    free, is not rejected cleanly: the cleanup loop erases the entry at the
    first occurrence and its assertion fails at the second, so
    [addProofIfNoConflict] aborts. *)
Theorem addProofIfNoConflict_self_collision_aborts :
  addProofIfNoConflict compareById [] proofE = None /\
  addProofIfNoConflict compareById poolB proofE = None /\
  attach compareById proofE (stakedUTXOs proofE) [] [] = ([mkEntry O3 proofE], [proofE]).
Proof. vm_compute. repeat split. Qed.

(** ** Further properties of the pool and the slots *)

(** *** Helper lemmas *)

Lemma filter_drop_all {A : Type} (f : A -> bool) (l : list A) :
  (forall x, In x l -> f x = false) -> filter f l = [].
Proof.
  induction l as [|x l IH]; simpl; intros H; [reflexivity|].
  rewrite (H x (or_introl eq_refl)). apply IH; auto.
Qed.

Lemma listfind_app {A : Type} (f : A -> bool) (l1 l2 : list A) :
  List.find f (l1 ++ l2) =
  match List.find f l1 with Some x => Some x | None => List.find f l2 end.
Proof.
  induction l1 as [|x l1 IH]; simpl; [reflexivity|]. destruct (f x); [reflexivity|exact IH].
Qed.

Lemma listfind_none {A : Type} (f : A -> bool) (l : list A) :
  (forall x, In x l -> f x = false) -> List.find f l = None.
Proof.
  induction l as [|x l IH]; simpl; intros H; [reflexivity|].
  rewrite (H x (or_introl eq_refl)). apply IH; auto.
Qed.

(** The first loop records no conflict only when every output was free and
    listed once; then it appended one entry per output. *)
Lemma attach_no_conflict (compare : Proof -> Proof -> bool) p utxos : forall pool confl,
  snd (attach compare p utxos pool confl) = [] ->
  confl = [] /\
  fst (attach compare p utxos pool confl) = pool ++ map (fun k => mkEntry k p) utxos /\
  (forall o, In o utxos -> find pool o = None) /\ NoDup utxos.
Proof.
  induction utxos as [|o utxos IH]; intros pool confl H; simpl in *.
  - refine (conj H (conj (eq_sym (app_nil_r pool)) (conj _ _))); [intros _ []|constructor].
  - unfold emplace in *; simpl in *. destruct (find pool o) as [e|] eqn:E; simpl in *.
    + exfalso. exact (attach_confl_nonempty compare p utxos pool _ (set_insert_nonempty compare _ _) H).
    + destruct (IH _ _ H) as (Hc & Hf & Hfree & Hnd). rewrite Hf, <- app_assoc.
      refine (conj Hc (conj eq_refl (conj _ _))).
      * intros k [<-|Hk]; [exact E|]. exact (proj1 (find_app_free _ _ _ (Hfree k Hk))).
      * constructor; [|exact Hnd]. intros Hin.
        destruct (find_app_free _ _ _ (Hfree o Hin)) as [_ Hn]. apply Hn; simpl; auto.
Qed.

Lemma addProofIfNoConflict_succeed_shape (compare : Proof -> Proof -> bool) pool p pool1 c :
  addProofIfNoConflict compare pool p = Some (SUCCEED, pool1, c) ->
  contains_id pool (getId p) = false /\ c = [] /\
  pool1 = pool ++ map (fun k => mkEntry k p) (stakedUTXOs p) /\
  (forall o, In o (stakedUTXOs p) -> find pool o = None) /\ NoDup (stakedUTXOs p).
Proof.
  unfold addProofIfNoConflict.
  destruct (contains_id pool (getId p)); [intros E; discriminate E|].
  pose proof (attach_no_conflict compare p (stakedUTXOs p) pool []) as Ha.
  destruct (attach compare p (stakedUTXOs p) pool []) as [pl [|c0 cs]]; simpl in Ha.
  - intros E; injection E as E1 E2; subst.
    destruct (Ha eq_refl) as (_ & Hf & Hfree & Hnd).
    exact (conj eq_refl (conj eq_refl (conj Hf (conj Hfree Hnd)))).
  - intros E; exfalso; eapply rejected_not_succeed; exact E.
Qed.

Lemma addProofIfNoConflict_duplicated_shape (compare : Proof -> Proof -> bool) pool p pool1 c :
  addProofIfNoConflict compare pool p = Some (DUPLICATED, pool1, c) ->
  contains_id pool (getId p) = true /\ pool1 = pool /\ c = [].
Proof.
  unfold addProofIfNoConflict.
  destruct (contains_id pool (getId p)); [intros E; injection E as E1 E2; subst; auto|].
  destruct (attach compare p (stakedUTXOs p) pool []) as [pl [|c0 cs]];
    [intros E; discriminate E|].
  destruct (cleanup (getId p) (stakedUTXOs p) pl); intros E; discriminate E.
Qed.

Lemma addProofIfNoConflict_rejected_nonempty (compare : Proof -> Proof -> bool) pool p pool1 c :
  addProofIfNoConflict compare pool p = Some (REJECTED, pool1, c) -> c <> [].
Proof.
  unfold addProofIfNoConflict.
  destruct (contains_id pool (getId p)); [intros E; discriminate E|].
  destruct (attach compare p (stakedUTXOs p) pool []) as [pl [|c0 cs]];
    [intros E; discriminate E|].
  destruct (cleanup (getId p) (stakedUTXOs p) pl); intros E; [|discriminate E].
  injection E as E1 E2; subst. discriminate.
Qed.

Lemma addProofIfNoConflict_contains (compare : Proof -> Proof -> bool) pool p :
  contains_id pool (getId p) = true ->
  addProofIfNoConflict compare pool p = Some (DUPLICATED, pool, []).
Proof. intros H. unfold addProofIfNoConflict. rewrite H. reflexivity. Qed.

Lemma getProofById_Some pool pid q :
  getProofById pool pid = Some q -> exists e, In e pool /\ entryProof e = q /\ getId q = pid.
Proof.
  unfold getProofById. destruct (List.find (has_id pid) pool) as [e|] eqn:E; [|discriminate].
  intros H; injection H as <-. apply find_some in E. destruct E as [He Hh].
  unfold has_id in Hh. apply N.eqb_eq in Hh. exists e; auto.
Qed.

Lemma getProofByUTXO_Some pool o q :
  getProofByUTXO pool o = Some q -> exists e, find pool o = Some e /\ entryProof e = q.
Proof.
  unfold getProofByUTXO. destruct (find pool o) as [e|]; [|discriminate].
  intros H; injection H as <-. eauto.
Qed.

(** *** The pool invariant of the reachable states *)

Lemma pool_inv_removeProof pool q : pool_inv pool -> pool_inv (fst (removeProof pool q)).
Proof.
  intros (Hk & Hpc & Hic).
  set (g := fun e => negb (has_id (getId q) e)).
  assert (E : fst (removeProof pool q) = filter g pool) by reflexivity. rewrite E.
  assert (Hin : forall e, In e (filter g pool) <-> In e pool /\ getId (entryProof e) <> getId q).
  { intros e. rewrite filter_In. unfold g, has_id.
    destruct (N.eqb_spec (getId (entryProof e)) (getId q)); simpl; intuition discriminate. }
  split; [apply keys_filter_nodup; exact Hk|split].
  - intros e He o Ho. apply Hin in He. destruct He as [He Hid].
    destruct (getProofByUTXO_Some _ _ _ (Hpc e He o Ho)) as [e' [E' Hpe]].
    destruct (find_Some _ _ _ E') as [He' Ho'].
    assert (He'f : In e' (filter g pool)) by (apply Hin; rewrite Hpe; auto).
    unfold getProofByUTXO. rewrite <- Ho'.
    rewrite (find_nodup_in _ e' (keys_filter_nodup g pool Hk) He'f). rewrite Hpe. reflexivity.
  - intros e1 e2 H1 H2. apply Hin in H1, H2. apply Hic; tauto.
Qed.

Lemma pool_inv_removeProofs pool qs : pool_inv pool -> pool_inv (removeProofs pool qs).
Proof.
  unfold removeProofs. revert pool; induction qs as [|q qs IH]; intros pool Hi; simpl; auto.
  apply IH. apply pool_inv_removeProof; exact Hi.
Qed.

Lemma pool_inv_append pool p :
  pool_inv pool -> contains_id pool (getId p) = false -> NoDup (stakedUTXOs p) ->
  (forall o, In o (stakedUTXOs p) -> find pool o = None) ->
  pool_inv (pool ++ map (fun k => mkEntry k p) (stakedUTXOs p)).
Proof.
  intros (Hk & Hpc & Hic) Hc Hnd Hf. split; [|split].
  - rewrite keys_app, keys_map_mk. apply NoDup_app; auto.
    intros x Hx Hy. apply Hf in Hy. apply find_None in Hy. contradiction.
  - intros e He o Ho. apply in_app_or in He. destruct He as [He|He].
    + destruct (getProofByUTXO_Some _ _ _ (Hpc e He o Ho)) as [e' [E' Hpe]].
      unfold getProofByUTXO. rewrite (find_app_Some _ _ _ _ E'). rewrite Hpe. reflexivity.
    + apply in_map_iff in He. destruct He as [k [<- _]]. simpl in Ho |- *.
      unfold getProofByUTXO. rewrite find_app_None by auto. rewrite find_map_mk by auto.
      reflexivity.
  - intros e1 e2 H1 H2 Hid. apply in_app_or in H1, H2.
    destruct H1 as [H1|H1], H2 as [H2|H2].
    + apply Hic; auto.
    + apply in_map_iff in H2. destruct H2 as [k [<- _]]. simpl in Hid.
      exfalso; exact (contains_id_false _ _ Hc e1 H1 Hid).
    + apply in_map_iff in H1. destruct H1 as [k [<- _]]. simpl in Hid.
      exfalso; exact (contains_id_false _ _ Hc e2 H2 (eq_sym Hid)).
    + apply in_map_iff in H1, H2. destruct H1 as [k1 [<- _]], H2 as [k2 [<- _]].
      reflexivity.
Qed.

Lemma pool_inv_addProofIfNoConflict (compare : Proof -> Proof -> bool) pool p st pool' c :
  pool_inv pool -> addProofIfNoConflict compare pool p = Some (st, pool', c) -> pool_inv pool'.
Proof.
  intros Hi H. destruct st.
  - destruct (addProofIfNoConflict_rejected compare _ _ _ _ H) as [-> _]. exact Hi.
  - destruct (addProofIfNoConflict_succeed_shape compare _ _ _ _ H) as (Hc & _ & -> & Hf & Hnd).
    apply pool_inv_append; auto.
  - destruct (addProofIfNoConflict_duplicated_shape compare _ _ _ _ H) as (_ & -> & _).
    exact Hi.
Qed.

Lemma pool_inv_addProofIfPreferred (compare : Proof -> Proof -> bool) pool p st pool' c :
  pool_inv pool -> addProofIfPreferred compare pool p = Some (st, pool', c) -> pool_inv pool'.
Proof.
  intros Hi. unfold addProofIfPreferred.
  destruct (addProofIfNoConflict compare pool p) as [[[a pool1] c1]|] eqn:H1; [|discriminate].
  pose proof (pool_inv_addProofIfNoConflict compare pool p a pool1 c1 Hi H1) as Hi1.
  destruct a; try (intros H; inversion H; subst; auto; fail).
  destruct c1 as [|best c1]; [intros H; inversion H; subst; auto|].
  destruct (compare p best); [|intros H; inversion H; subst; auto].
  destruct (addProofIfNoConflict compare (removeProofs pool1 (best :: c1)) p)
    as [[[a3 pool3] c3]|] eqn:H3; [|discriminate].
  destruct a3; try discriminate. intros H; inversion H; subst.
  eapply pool_inv_addProofIfNoConflict; [|exact H3]. apply pool_inv_removeProofs; exact Hi1.
Qed.

Lemma reachable_pool_inv (compare : Proof -> Proof -> bool) pool :
  reachable compare pool -> pool_inv pool.
Proof.
  induction 1 as [|pool c pool' Hr IH Hrun].
  - split; [constructor|split]; [intros e []|intros e1 e2 []].
  - destruct c as [p|p|p]; simpl in Hrun.
    + destruct (addProofIfNoConflict compare pool p) as [[[st pl] cf]|] eqn:E; [|discriminate].
      injection Hrun as <-. eapply pool_inv_addProofIfNoConflict; eauto.
    + destruct (addProofIfPreferred compare pool p) as [[[st pl] cf]|] eqn:E; [|discriminate].
      injection Hrun as <-. eapply pool_inv_addProofIfPreferred; eauto.
    + injection Hrun as <-. apply pool_inv_removeProof; exact IH.
Qed.

(** *** Properties *)

(** [addProofIfNoConflict] returns [SUCCEED] exactly when no entry carries
    the proof's id, the proof lists no output twice and none of its outputs
    is held; the pool then gains one entry per staked output, in stake
    order, after the existing ones, and no conflict is reported. *)
Theorem addProofIfNoConflict_succeed_iff (compare : Proof -> Proof -> bool)
    (pool : ProofPool) (p : Proof) (pool1 : ProofPool) (c : ConflictingProofSet) :
  addProofIfNoConflict compare pool p = Some (SUCCEED, pool1, c) <->
  contains_id pool (getId p) = false /\ NoDup (stakedUTXOs p) /\
  (forall o, In o (stakedUTXOs p) -> getProofByUTXO pool o = None) /\
  pool1 = pool ++ map (fun o => mkEntry o p) (stakedUTXOs p) /\ c = [].
Proof.
  split.
  - intros H. destruct (addProofIfNoConflict_succeed_shape compare pool p pool1 c H)
      as (Hc & Hcc & Hp & Hf & Hnd).
    refine (conj Hc (conj Hnd (conj _ (conj Hp Hcc)))).
    intros o Ho. apply getProofByUTXO_None; auto.
  - intros (Hc & Hnd & Hf & -> & ->).
    assert (Hf' : forall o, In o (stakedUTXOs p) -> find pool o = None)
      by (intros o Ho; apply getProofByUTXO_None; auto).
    rewrite (addProofIfNoConflict_nodup_stakes compare pool p Hnd Hc).
    rewrite (conflFold_all_free compare pool (stakedUTXOs p) [] Hf'), (filter_freeb_all pool _ Hf').
    reflexivity.
Qed.

Lemma addProofIfNoConflict_succeed_iff_witness :
  addProofIfNoConflict compareById [] proofA =
    Some (SUCCEED, [mkEntry O1 proofA; mkEntry O2 proofA], []) /\
  (contains_id [] (getId proofA) = false /\ NoDup (stakedUTXOs proofA) /\
   (forall o, In o (stakedUTXOs proofA) -> getProofByUTXO [] o = None) /\
   [mkEntry O1 proofA; mkEntry O2 proofA] =
     [] ++ map (fun o => mkEntry o proofA) (stakedUTXOs proofA) /\
   ([] : ConflictingProofSet) = []).
Proof.
  assert (H : addProofIfNoConflict compareById [] proofA =
                Some (SUCCEED, [mkEntry O1 proofA; mkEntry O2 proofA], []))
    by (vm_compute; reflexivity).
  split; [exact H|]. exact (proj1 (addProofIfNoConflict_succeed_iff compareById [] proofA _ _) H).
Defined.

(** After a successful [addProofIfNoConflict], [getProof(outpoint)] returns
    the new proof for each of its outputs and what it returned before for
    every other output; [getProof(proofid)] is unchanged for every other id
    and returns the new proof for its id when it has a stake. *)
Theorem addProofIfNoConflict_succeed_lookup (compare : Proof -> Proof -> bool)
    (pool : ProofPool) (p : Proof) (pool1 : ProofPool) (c : ConflictingProofSet) :
  addProofIfNoConflict compare pool p = Some (SUCCEED, pool1, c) ->
  (forall o, In o (stakedUTXOs p) -> getProofByUTXO pool1 o = Some p) /\
  (forall o, ~ In o (stakedUTXOs p) -> getProofByUTXO pool1 o = getProofByUTXO pool o) /\
  (forall pid, pid <> getId p -> getProofById pool1 pid = getProofById pool pid) /\
  (getStakes p <> [] -> getProofById pool1 (getId p) = Some p).
Proof.
  intros H. destruct (addProofIfNoConflict_succeed_shape compare pool p pool1 c H)
    as (Hc & _ & -> & Hf & _).
  split; [|split; [|split]].
  - intros o Ho. unfold getProofByUTXO. rewrite find_app_None by auto.
    rewrite find_map_mk by exact Ho. reflexivity.
  - intros o Ho. unfold getProofByUTXO. destruct (find pool o) as [e|] eqn:E.
    + rewrite (find_app_Some _ _ _ _ E). reflexivity.
    + rewrite find_app_None by exact E.
      rewrite (proj2 (find_None _ _)) by (rewrite keys_map_mk; exact Ho). reflexivity.
  - intros pid Hpid. unfold getProofById. rewrite listfind_app.
    destruct (List.find (has_id pid) pool); [reflexivity|].
    rewrite listfind_none; [reflexivity|]. intros x Hx. apply in_map_iff in Hx.
    destruct Hx as [k [<- _]]. unfold has_id; simpl. apply N.eqb_neq. auto.
  - intros Hne. unfold getProofById. rewrite listfind_app.
    rewrite (listfind_none (has_id (getId p)) pool)
      by (intros e He; unfold has_id; apply N.eqb_neq; exact (contains_id_false _ _ Hc e He)).
    unfold stakedUTXOs. destruct (getStakes p); [contradiction|]. simpl.
    unfold has_id; simpl. rewrite N.eqb_refl. reflexivity.
Qed.

Lemma addProofIfNoConflict_succeed_lookup_witness :
  addProofIfNoConflict compareById poolB proofC =
    Some (SUCCEED, poolB ++ [mkEntry O2 proofC], []) /\
  getStakes proofC <> [] /\
  getProofById (poolB ++ [mkEntry O2 proofC]) (getId proofC) = Some proofC /\
  getProofByUTXO (poolB ++ [mkEntry O2 proofC]) O1 = getProofByUTXO poolB O1.
Proof.
  assert (H : addProofIfNoConflict compareById poolB proofC =
                Some (SUCCEED, poolB ++ [mkEntry O2 proofC], []))
    by (vm_compute; reflexivity).
  assert (Hne : getStakes proofC <> []) by discriminate.
  assert (HO : ~ In O1 (stakedUTXOs proofC)) by (simpl; intros [E|[]]; discriminate E).
  pose proof (addProofIfNoConflict_succeed_lookup compareById _ _ _ _ H) as (_ & H2 & _ & H4).
  exact (conj H (conj Hne (conj (H4 Hne) (H2 O1 HO)))).
Defined.

(** The assertion of the cleanup loop never fails for a proof that lists no
    output twice: [addProofIfNoConflict] then always returns. *)
Theorem addProofIfNoConflict_nodup_no_abort (compare : Proof -> Proof -> bool)
    (pool : ProofPool) (p : Proof) :
  NoDup (stakedUTXOs p) -> addProofIfNoConflict compare pool p <> None.
Proof.
  intros Hnd. destruct (contains_id pool (getId p)) eqn:Hc.
  - rewrite (addProofIfNoConflict_contains compare pool p Hc). discriminate.
  - rewrite (addProofIfNoConflict_nodup_stakes compare pool p Hnd Hc). discriminate.
Qed.

Lemma addProofIfNoConflict_nodup_no_abort_witness :
  NoDup (stakedUTXOs proofA) /\ addProofIfNoConflict compareById poolB proofA <> None.
Proof.
  assert (Hnd : NoDup (stakedUTXOs proofA)).
  { constructor; [simpl; intros [H|[]]; discriminate H|].
    constructor; [simpl; tauto|constructor]. }
  split; [exact Hnd|]. exact (addProofIfNoConflict_nodup_no_abort compareById poolB proofA Hnd).
Defined.

(** The status and the [conflictingProofs] out-parameter of
    [addProofIfNoConflict]: [DUPLICATED] exactly when the id is already in
    the pool; only [SUCCEED] changes the pool; the conflict set is empty
    exactly when the status is not [REJECTED]. *)
Theorem addProofIfNoConflict_status (compare : Proof -> Proof -> bool)
    (pool : ProofPool) (p : Proof) (st : AddProofStatus) (pool' : ProofPool)
    (c : ConflictingProofSet) :
  addProofIfNoConflict compare pool p = Some (st, pool', c) ->
  (st = DUPLICATED <-> contains_id pool (getId p) = true) /\
  (st <> SUCCEED -> pool' = pool) /\
  (c = [] <-> st <> REJECTED).
Proof.
  intros H.
  assert (Hdup : contains_id pool (getId p) = true -> st = DUPLICATED).
  { intros Hc. rewrite (addProofIfNoConflict_contains compare pool p Hc) in H.
    injection H as <- _ _. reflexivity. }
  destruct st.
  - destruct (addProofIfNoConflict_rejected compare _ _ _ _ H) as [-> _].
    pose proof (addProofIfNoConflict_rejected_nonempty compare _ _ _ _ H) as Hne.
    split; [split; [intros E; discriminate E|intros Hc; discriminate (Hdup Hc)]|].
    split; [reflexivity|]. split; [intros E; contradiction|intros E; exfalso; apply E; reflexivity].
  - destruct (addProofIfNoConflict_succeed_shape compare _ _ _ _ H) as (Hc & -> & _).
    split; [split; [intros E; discriminate E|intros E; congruence]|].
    split; [intros E; exfalso; apply E; reflexivity|].
    split; [intros _ E; discriminate E|reflexivity].
  - destruct (addProofIfNoConflict_duplicated_shape compare _ _ _ _ H) as (Hc & -> & ->).
    split; [split; [intros _; exact Hc|reflexivity]|]. split; [reflexivity|].
    split; [intros _ E; discriminate E|reflexivity].
Qed.

Lemma addProofIfNoConflict_status_witness :
  addProofIfNoConflict compareById poolB proofA = Some (REJECTED, poolB, [proofB]) /\
  ((REJECTED = DUPLICATED <-> contains_id poolB (getId proofA) = true) /\
   (REJECTED <> SUCCEED -> poolB = poolB) /\
   ([proofB] = [] <-> REJECTED <> REJECTED)).
Proof.
  assert (H : addProofIfNoConflict compareById poolB proofA = Some (REJECTED, poolB, [proofB]))
    by (vm_compute; reflexivity).
  split; [exact H|]. exact (addProofIfNoConflict_status compareById _ _ _ _ _ H).
Defined.

(** Inserting a proof with at least one stake and removing it again is a
    round trip: [removeProof] reports an erasure and gives back the pool as
    it was before the insertion. *)
Theorem addProofIfNoConflict_removeProof_roundtrip (compare : Proof -> Proof -> bool)
    (pool : ProofPool) (p : Proof) (pool1 : ProofPool) (c : ConflictingProofSet) :
  getStakes p <> [] ->
  addProofIfNoConflict compare pool p = Some (SUCCEED, pool1, c) ->
  removeProof pool1 p = (pool, true).
Proof.
  intros Hne H. destruct (addProofIfNoConflict_succeed_shape compare pool p pool1 c H)
    as (Hc & _ & -> & _ & _).
  assert (Hold : forall e, In e pool -> has_id (getId p) e = false)
    by (intros e He; unfold has_id; apply N.eqb_neq; exact (contains_id_false _ _ Hc e He)).
  assert (Hnew : forall e, In e (map (fun o => mkEntry o p) (stakedUTXOs p)) ->
                           has_id (getId p) e = true).
  { intros e He. apply in_map_iff in He. destruct He as [k [<- _]].
    unfold has_id; simpl. apply N.eqb_refl. }
  unfold removeProof, erase_id. rewrite !filter_app.
  rewrite (filter_keep_all (fun e => negb (has_id (getId p) e)) pool)
    by (intros e He; rewrite Hold; auto).
  rewrite (filter_drop_all (fun e => negb (has_id (getId p) e)))
    by (intros e He; rewrite Hnew; auto).
  rewrite (filter_drop_all (has_id (getId p)) pool Hold).
  rewrite (filter_keep_all (has_id (getId p)) _ Hnew).
  rewrite app_nil_r. simpl. unfold stakedUTXOs. rewrite !length_map.
  destruct (getStakes p); [contradiction|reflexivity].
Qed.

Lemma addProofIfNoConflict_removeProof_roundtrip_witness :
  getStakes proofC <> [] /\
  addProofIfNoConflict compareById poolB proofC =
    Some (SUCCEED, poolB ++ [mkEntry O2 proofC], []) /\
  removeProof (poolB ++ [mkEntry O2 proofC]) proofC = (poolB, true).
Proof.
  assert (Hne : getStakes proofC <> []) by discriminate.
  assert (H : addProofIfNoConflict compareById poolB proofC =
                Some (SUCCEED, poolB ++ [mkEntry O2 proofC], []))
    by (vm_compute; reflexivity).
  exact (conj Hne (conj H (addProofIfNoConflict_removeProof_roundtrip compareById _ _ _ _ Hne H))).
Defined.

(** A second [removeProof] of the same proof erases nothing: it returns
    false and leaves the pool as the first one left it. *)
Theorem removeProof_idempotent (pool : ProofPool) (p : Proof) :
  removeProof (fst (removeProof pool p)) p = (fst (removeProof pool p), false).
Proof.
  change (fst (removeProof pool p)) with (filter (fun e => negb (has_id (getId p) e)) pool).
  set (pool1 := filter (fun e => negb (has_id (getId p) e)) pool).
  assert (Hall : forall e, In e pool1 -> has_id (getId p) e = false).
  { intros e He. apply filter_In in He. destruct He as [_ He]. apply negb_true_iff; exact He. }
  unfold removeProof, erase_id.
  rewrite (filter_keep_all (fun e => negb (has_id (getId p) e)) pool1)
    by (intros e He; rewrite Hall; auto).
  rewrite (filter_drop_all (has_id (getId p)) pool1 Hall). reflexivity.
Qed.

(** When [addProofIfPreferred] returns [REJECTED], the pool is as it was,
    and the reported conflicts are a non-empty set of proofs each holding
    one of the candidate's outputs. *)
Theorem addProofIfPreferred_rejected_unchanged (compare : Proof -> Proof -> bool)
    (pool : ProofPool) (p : Proof) (pool' : ProofPool) (c : ConflictingProofSet) :
  addProofIfPreferred compare pool p = Some (REJECTED, pool', c) ->
  pool' = pool /\ c <> [] /\
  (forall q, In q c -> exists o, In o (stakedUTXOs p) /\ getProofByUTXO pool o = Some q).
Proof.
  unfold addProofIfPreferred.
  destruct (addProofIfNoConflict compare pool p) as [[[a pool1] c1]|] eqn:H1; [|discriminate].
  destruct a.
  - destruct c1 as [|best rest].
    + exfalso. exact (addProofIfNoConflict_rejected_nonempty compare _ _ _ _ H1 eq_refl).
    + destruct (compare p best).
      * destruct (addProofIfNoConflict compare (removeProofs pool1 (best :: rest)) p)
          as [[[a3 pool3] c3]|]; [destruct a3|]; intros E; discriminate E.
      * intros E; injection E as E1 E2; subst pool' c.
        destruct (addProofIfNoConflict_rejected compare _ _ _ _ H1) as [-> Hcf].
        split; [reflexivity|]. split; [discriminate|].
        intros q Hq. rewrite Hcf in Hq.
        destruct (conflFold_in compare pool (stakedUTXOs p) [] q Hq) as [[]|Ho]. exact Ho.
  - destruct c1; intros E; discriminate E.
  - destruct c1; intros E; discriminate E.
Qed.

Lemma addProofIfPreferred_rejected_unchanged_witness :
  addProofIfPreferred compareById (poolB ++ [mkEntry O2 proofC]) proofA =
    Some (REJECTED, poolB ++ [mkEntry O2 proofC], [proofC; proofB]) /\
  ((poolB ++ [mkEntry O2 proofC]) = (poolB ++ [mkEntry O2 proofC]) /\
   [proofC; proofB] <> [] /\
   (forall q, In q [proofC; proofB] -> exists o, In o (stakedUTXOs proofA) /\
      getProofByUTXO (poolB ++ [mkEntry O2 proofC]) o = Some q)).
Proof.
  assert (H : addProofIfPreferred compareById (poolB ++ [mkEntry O2 proofC]) proofA =
                Some (REJECTED, poolB ++ [mkEntry O2 proofC], [proofC; proofB]))
    by (vm_compute; reflexivity).
  split; [exact H|]. exact (addProofIfPreferred_rejected_unchanged compareById _ _ _ _ H).
Defined.

(** [addProofIfPreferred] returns [DUPLICATED] exactly when the proof's id
    is already in the pool, and then changes nothing and reports no
    conflict. *)
Theorem addProofIfPreferred_duplicated (compare : Proof -> Proof -> bool)
    (pool : ProofPool) (p : Proof) (pool' : ProofPool) (c : ConflictingProofSet) :
  addProofIfPreferred compare pool p = Some (DUPLICATED, pool', c) <->
  contains_id pool (getId p) = true /\ pool' = pool /\ c = [].
Proof.
  split.
  - unfold addProofIfPreferred.
    destruct (addProofIfNoConflict compare pool p) as [[[a pool1] c1]|] eqn:H1; [|discriminate].
    destruct a.
    + destruct c1 as [|best rest]; [intros E; discriminate E|].
      destruct (compare p best); [|intros E; discriminate E].
      destruct (addProofIfNoConflict compare (removeProofs pool1 (best :: rest)) p)
        as [[[a3 pool3] c3]|]; [destruct a3|]; intros E; discriminate E.
    + destruct c1; intros E; discriminate E.
    + destruct c1 as [|best rest]; intros E; injection E as E1 E2; subst pool' c;
        exact (addProofIfNoConflict_duplicated_shape compare _ _ _ _ H1).
  - intros (Hc & -> & ->). unfold addProofIfPreferred.
    rewrite (addProofIfNoConflict_contains compare pool p Hc). reflexivity.
Qed.

Lemma addProofIfPreferred_duplicated_witness :
  addProofIfPreferred compareById poolB proofB = Some (DUPLICATED, poolB, []) /\
  (contains_id poolB (getId proofB) = true /\ poolB = poolB /\ ([] : ConflictingProofSet) = []).
Proof.
  assert (H : addProofIfPreferred compareById poolB proofB = Some (DUPLICATED, poolB, []))
    by (vm_compute; reflexivity).
  split; [exact H|]. exact (proj1 (addProofIfPreferred_duplicated compareById _ _ _ _) H).
Defined.

(** When [addProofIfPreferred] returns [SUCCEED], the only entries it
    removed are those of the reported conflicting proofs (every one of
    which held one of the candidate's outputs), and it appended one entry
    per staked output of the candidate, which then holds all of them. *)
Theorem addProofIfPreferred_succeed (compare : Proof -> Proof -> bool)
    (pool : ProofPool) (p : Proof) (pool' : ProofPool) (c : ConflictingProofSet) :
  addProofIfPreferred compare pool p = Some (SUCCEED, pool', c) ->
  pool' = removeProofs pool c ++ map (fun o => mkEntry o p) (stakedUTXOs p) /\
  (forall q, In q c -> exists o, In o (stakedUTXOs p) /\ getProofByUTXO pool o = Some q) /\
  (forall o, In o (stakedUTXOs p) -> getProofByUTXO pool' o = Some p).
Proof.
  unfold addProofIfPreferred.
  destruct (addProofIfNoConflict compare pool p) as [[[a pool1] c1]|] eqn:H1; [|discriminate].
  destruct a.
  - destruct c1 as [|best rest]; [intros E; discriminate E|].
    destruct (compare p best); [|intros E; discriminate E].
    destruct (addProofIfNoConflict compare (removeProofs pool1 (best :: rest)) p)
      as [[[a3 pool3] c3]|] eqn:H3; [|discriminate].
    destruct a3; [intros E; discriminate E| |intros E; discriminate E].
    intros E; injection E as E1 E2; subst pool' c.
    destruct (addProofIfNoConflict_rejected compare _ _ _ _ H1) as [-> Hcf].
    destruct (addProofIfNoConflict_succeed_shape compare _ _ _ _ H3) as (_ & _ & -> & Hf & _).
    split; [reflexivity|split].
    + intros q Hq. rewrite Hcf in Hq.
      destruct (conflFold_in compare pool (stakedUTXOs p) [] q Hq) as [[]|Ho]. exact Ho.
    + intros o Ho. unfold getProofByUTXO. rewrite find_app_None by auto.
      rewrite find_map_mk by exact Ho. reflexivity.
  - destruct (addProofIfNoConflict_succeed_shape compare _ _ _ _ H1) as (_ & -> & -> & Hf & _).
    intros E; injection E as E1 E2; subst pool' c.
    split; [reflexivity|split; [intros q []|]].
    intros o Ho. unfold getProofByUTXO. rewrite find_app_None by auto.
    rewrite find_map_mk by exact Ho. reflexivity.
  - destruct c1; intros E; discriminate E.
Qed.

Lemma addProofIfPreferred_succeed_witness :
  addProofIfPreferred compareById poolB proofA =
    Some (SUCCEED, [mkEntry O1 proofA; mkEntry O2 proofA], [proofB]) /\
  ([mkEntry O1 proofA; mkEntry O2 proofA] =
     removeProofs poolB [proofB] ++ map (fun o => mkEntry o proofA) (stakedUTXOs proofA) /\
   (forall q, In q [proofB] -> exists o, In o (stakedUTXOs proofA) /\
      getProofByUTXO poolB o = Some q) /\
   (forall o, In o (stakedUTXOs proofA) ->
      getProofByUTXO [mkEntry O1 proofA; mkEntry O2 proofA] o = Some proofA)).
Proof.
  assert (H : addProofIfPreferred compareById poolB proofA =
                Some (SUCCEED, [mkEntry O1 proofA; mkEntry O2 proofA], [proofB]))
    by (vm_compute; reflexivity).
  split; [exact H|]. exact (addProofIfPreferred_succeed compareById _ _ _ _ H).
Defined.

(** With a comparator that breaks ties by proof id, on a pool whose outputs
    are unique (every reachable pool), [addProofIfPreferred] never aborts
    for a proof listing no output twice: once the conflicting proofs are
    removed, the retry succeeds. *)
Theorem addProofIfPreferred_no_abort (compare : Proof -> Proof -> bool)
    (pool : ProofPool) (p : Proof) :
  ties_by_id compare -> NoDup (keys pool) -> NoDup (stakedUTXOs p) ->
  addProofIfPreferred compare pool p <> None.
Proof.
  intros Hties Hkeys Hnd.
  destruct (contains_id pool (getId p)) eqn:Hcont.
  - unfold addProofIfPreferred. rewrite (addProofIfNoConflict_contains compare pool p Hcont).
    discriminate.
  - unfold addProofIfPreferred. rewrite (addProofIfNoConflict_nodup_stakes compare pool p Hnd Hcont).
    pose proof (fun o q => conflFold_ids compare pool (stakedUTXOs p) o q Hties) as Hids.
    destruct (conflFold compare pool (stakedUTXOs p) []) as [|best rest] eqn:Ec; [discriminate|].
    cbv iota beta zeta. destruct (compare p best); [|discriminate].
    set (pool2 := removeProofs pool (best :: rest)).
    assert (Hfree : forall o, In o (stakedUTXOs p) -> find pool2 o = None).
    { intros o Ho. apply find_None. intros Hk. unfold keys in Hk. apply in_map_iff in Hk.
      destruct Hk as [e [He1 He2]]. apply removeProofs_in in He2. destruct He2 as [He Hne].
      assert (Hq : getProofByUTXO pool o = Some (entryProof e)).
      { unfold getProofByUTXO. rewrite <- He1, (find_nodup_in pool e Hkeys He). reflexivity. }
      destruct (Hids o _ Ho Hq) as [q' [Hq' Hid]]. exact (Hne q' Hq' (eq_sym Hid)). }
    assert (Hcont2 : contains_id pool2 (getId p) = false).
    { destruct (contains_id pool2 (getId p)) eqn:E; [|reflexivity].
      apply contains_id_true in E. destruct E as [e [He Hid]].
      apply removeProofs_in in He. destruct He as [He _].
      exfalso; exact (contains_id_false _ _ Hcont e He Hid). }
    rewrite (addProofIfNoConflict_nodup_stakes compare pool2 p Hnd Hcont2).
    rewrite (conflFold_all_free compare pool2 (stakedUTXOs p) [] Hfree).
    discriminate.
Qed.

Lemma addProofIfPreferred_no_abort_witness :
  ties_by_id compareById /\ NoDup (keys poolB) /\ NoDup (stakedUTXOs proofA) /\
  addProofIfPreferred compareById poolB proofA <> None.
Proof.
  assert (Hk : NoDup (keys poolB)) by (constructor; [simpl; tauto|constructor]).
  assert (Hnd : NoDup (stakedUTXOs proofA)).
  { constructor; [simpl; intros [H|[]]; discriminate H|].
    constructor; [simpl; tauto|constructor]. }
  refine (conj compareById_ties_by_id (conj Hk (conj Hnd _))).
  exact (addProofIfPreferred_no_abort compareById poolB proofA compareById_ties_by_id Hk Hnd).
Defined.

(** In every reachable pool a proof is present whole: if one entry carries
    a proof, [getProof(outpoint)] returns that proof for each of its staked
    outputs. *)
Theorem reachable_proofs_whole (compare : Proof -> Proof -> bool) (pool : ProofPool) :
  reachable compare pool ->
  forall e, In e pool -> forall o, In o (stakedUTXOs (entryProof e)) ->
    getProofByUTXO pool o = Some (entryProof e).
Proof.
  intros Hr. destruct (reachable_pool_inv compare pool Hr) as (_ & Hpc & _). exact Hpc.
Qed.

Lemma reachable_proofs_whole_witness :
  reachable compareById [mkEntry O1 proofA; mkEntry O2 proofA] /\
  In (mkEntry O1 proofA) [mkEntry O1 proofA; mkEntry O2 proofA] /\
  In O2 (stakedUTXOs (entryProof (mkEntry O1 proofA))) /\
  getProofByUTXO [mkEntry O1 proofA; mkEntry O2 proofA] O2 = Some proofA.
Proof.
  assert (Hr : reachable compareById [mkEntry O1 proofA; mkEntry O2 proofA]).
  { apply (reachable_step compareById [] (CallAddProofIfNoConflict proofA));
      [constructor|vm_compute; reflexivity]. }
  assert (He : In (mkEntry O1 proofA) [mkEntry O1 proofA; mkEntry O2 proofA]) by (left; reflexivity).
  assert (Ho : In O2 (stakedUTXOs (entryProof (mkEntry O1 proofA)))) by (simpl; auto).
  exact (conj Hr (conj He (conj Ho
    (reachable_proofs_whole compareById _ Hr (mkEntry O1 proofA) He O2 Ho)))).
Defined.

(** In every reachable pool the two lookups agree: the proof
    [getProof(outpoint)] returns is the one [getProof(proofid)] returns for
    its id, and the proof [getProof(proofid)] returns carries that id and
    holds each of its staked outputs. *)
Theorem reachable_views_agree (compare : Proof -> Proof -> bool) (pool : ProofPool) :
  reachable compare pool ->
  (forall o q, getProofByUTXO pool o = Some q -> getProofById pool (getId q) = Some q) /\
  (forall pid q, getProofById pool pid = Some q ->
     getId q = pid /\ forall o, In o (stakedUTXOs q) -> getProofByUTXO pool o = Some q).
Proof.
  intros Hr. destruct (reachable_pool_inv compare pool Hr) as (_ & Hpc & Hic). split.
  - intros o q Hq. destruct (getProofByUTXO_Some _ _ _ Hq) as [e [E <-]].
    destruct (find_Some _ _ _ E) as [He _].
    unfold getProofById. destruct (List.find (has_id (getId (entryProof e))) pool) as [e'|] eqn:F.
    + apply find_some in F. destruct F as [He' Hh]. unfold has_id in Hh. apply N.eqb_eq in Hh.
      f_equal. apply Hic; auto.
    + exfalso. pose proof (find_none _ _ F e He) as Hh. unfold has_id in Hh.
      rewrite N.eqb_refl in Hh. discriminate Hh.
  - intros pid q Hq. destruct (getProofById_Some _ _ _ Hq) as [e [He [<- Hid]]].
    split; [exact Hid|]. apply Hpc; exact He.
Qed.

Lemma reachable_views_agree_witness :
  reachable compareById (poolB ++ [mkEntry O2 proofC]) /\
  getProofByUTXO (poolB ++ [mkEntry O2 proofC]) O2 = Some proofC /\
  getProofById (poolB ++ [mkEntry O2 proofC]) (getId proofC) = Some proofC.
Proof.
  assert (Hr : reachable compareById (poolB ++ [mkEntry O2 proofC])).
  { apply (reachable_step compareById poolB (CallAddProofIfNoConflict proofC));
      [|vm_compute; reflexivity].
    apply (reachable_step compareById [] (CallAddProofIfNoConflict proofB));
      [constructor|vm_compute; reflexivity]. }
  assert (Hq : getProofByUTXO (poolB ++ [mkEntry O2 proofC]) O2 = Some proofC)
    by (vm_compute; reflexivity).
  exact (conj Hr (conj Hq (proj1 (reachable_views_agree compareById _ Hr) O2 proofC Hq))).
Defined.
